(** * QuantumHoneypot: the decoy engine of [ai/app.py]

    A shallow embedding of the decoy generation and scoring code of
    [src/ai/app.py] and the properties its specification states about it.

    Conventions of the embedding.
    - A Python [str] is the list of its Unicode code points ([Z]).
    - A Python [int] is a [Z]; a Python [float] is an exact rational ([Q]):
      rounding error of binary floating point is not modelled.
    - An uncaught exception is the [Raise] outcome of [result].
    - [numpy]'s global random generator is threaded explicitly as a tape of
      raw draws [rng]; every function that draws is a computation in [M].
    - Library code ([numpy], [re], [difflib], [sklearn], the Unicode
      database) is modelled by its documented behaviour. *)

From Stdlib Require Import ZArith QArith Qround Lia Lqa Bool.
From Stdlib Require Import Sorted Permutation Ascii String DecimalString.
From stdpp Require Import base list strings sorting.

Close Scope Q_scope.
Close Scope Z_scope.
Open Scope nat_scope.

Set Default Proof Using "Type".

(** ** Python values *)

Abbreviation char := Z (only parsing).
Abbreviation str := (list Z) (only parsing).

(** [ord c] for an ASCII character, and an ASCII literal as a [str]. *)
Definition ord (a : ascii) : Z := Z.of_N (N_of_ascii a).

Fixpoint pystr (s : string) : str :=
  match s with
  | EmptyString => []
  | String a s' => ord a :: pystr s'
  end.

Inductive exn : Set :=
  | ValueError      (* numpy: bad population or interval *)
  | IndexError      (* subscript out of range *)
  | re_error.       (* re.error: bad escape in a replacement template *)

Inductive result (A : Type) : Type :=
  | Ok (a : A)
  | Raise (e : exn).
Arguments Ok {A} a.
Arguments Raise {A} e.

(** [l[i]] for a Python list, negative subscripts included. *)
Definition getitem {A} (l : list A) (i : Z) : result A :=
  let n := Z.of_nat (length l) in
  let j := if (i <? 0)%Z then (i + n)%Z else i in
  if ((0 <=? j) && (j <? n))%Z
  then match l !! Z.to_nat j with
       | Some x => Ok x
       | None => Raise IndexError
       end
  else Raise IndexError.

(** [k in d] and [d[k]] for a dict written as its list of items. *)
Fixpoint dict_get {V} (k : str) (d : list (str * V)) : option V :=
  match d with
  | [] => None
  | (k', v) :: d' => if decide (k = k') then Some v else dict_get k d'
  end.

(** [int(x)] of a float: truncation toward zero. *)
Definition py_int (x : Q) : Z := Z.quot (Qnum x) (Z.pos (Qden x)).

(** ** The random source

    The generator is a tape of raw draws, read as zeros once it is used up.
    Each numpy call consumes draws from the front and reduces them into the
    range it needs. *)

Definition rng : Type := list Z.

Definition M (A : Type) : Type := rng → result (A * rng).

Definition ret {A} (a : A) : M A := λ g, Ok (a, g).

Definition raise {A} (e : exn) : M A := λ _, Raise e.

Definition bind {A B} (m : M A) (f : A → M B) : M B :=
  λ g, match m g with
       | Ok (a, g') => f a g'
       | Raise e => Raise e
       end.

Definition lift {A} (r : result A) : M A :=
  λ g, match r with
       | Ok a => Ok (a, g)
       | Raise e => Raise e
       end.

Notation "'do' x <- m ; k" := (bind m (λ x, k))
  (at level 10, x name, m at level 100, k at level 200, only parsing).

Definition draw : M Z := λ g, Ok (hd 0%Z g, tail g).

(** [np.random.random()]: a 53-bit integer [k], returned as [k / 2^53]. *)
Definition random_bits : Z := 2 ^ 53.

Definition np_random_random : M Q :=
  do r <- draw;
  ret (Qmake (r mod random_bits) (Z.to_pos random_bits)).

(** [np.random.randint(low, high)]: an integer of [low, high). *)
Definition np_random_randint (low high : Z) : M Z :=
  if (low <? high)%Z
  then do r <- draw; ret (low + r mod (high - low))%Z
  else raise ValueError.

(** Drawing [size] elements of [pool] one after the other, without putting
    any back. *)
Fixpoint sample (pool : list nat) (size : nat) : M (list nat) :=
  match size with
  | O => ret []
  | S size' =>
      do r <- draw;
      let i := Z.to_nat (r mod Z.of_nat (length pool)) in
      match pool !! i with
      | Some p => do ps <- sample (delete i pool) size'; ret (p :: ps)
      | None => ret []
      end
  end.

(** [np.random.choice(a, size=size, replace=False)] for an integer [a]. *)
Definition np_random_choice (a : Z) (size : Z) : M (list nat) :=
  if (size <? 0)%Z then raise ValueError
  else if ((a <=? 0) && negb (size =? 0))%Z then raise ValueError
  else if (a <? size)%Z then raise ValueError
  else sample (seq 0 (Z.to_nat a)) (Z.to_nat size).

(** ** The Unicode character database, as far as the code consults it *)

Class UCD : Type := {
  str_lower : char → str;     (* c.lower() *)
  isalpha : char → bool;      (* c.isalpha() *)
  isupper : char → bool;      (* c.isupper() *)
  isdigit : char → bool;      (* c.isdigit() *)
  re_word : char → bool;      (* c matches \w *)
  re_digit : char → bool      (* c matches \d *)
}.

Definition in_range (lo hi c : Z) : bool := ((lo <=? c) && (c <=? hi))%Z.

(** The database on ASCII.  Code points above 127 are classified as symbols
    here, so closed examples below use ASCII targets only. *)
Definition ascii_lower (c : char) : str :=
  if in_range 65 90 c then [(c + 32)%Z] else [c].

#[export] Instance ascii_ucd : UCD := {|
  str_lower := ascii_lower;
  isalpha c := in_range 65 90 c || in_range 97 122 c;
  isupper c := in_range 65 90 c;
  isdigit c := in_range 48 57 c;
  re_word c := in_range 65 90 c || in_range 97 122 c || in_range 48 57 c
               || (c =? 95)%Z;
  re_digit c := in_range 48 57 c
|}.

(** ** Mutation primitives and the decoy generator *)

Section Generator.
Context `{UCD}.

(** The homoglyph table of [character_substitution_decoy]. *)
Definition substitutions : list (str * list char) :=
  [ (pystr "a", [ord "@"; ord "4"; 225%Z (* a acute *)]);
    (pystr "b", [ord "6"; ord "8"; 223%Z (* sharp s *)]);
    (pystr "e", [ord "3"; 233%Z (* e acute *); 235%Z (* e diaeresis *)]);
    (pystr "i", [ord "1"; ord "!"; 237%Z (* i acute *)]);
    (pystr "l", [ord "1"; ord "|"; 322%Z (* l stroke *)]);
    (pystr "o", [ord "0"; 248%Z (* o stroke *); 243%Z (* o acute *)]);
    (pystr "s", [ord "5"; ord "$"; 353%Z (* s caron *)]);
    (pystr "t", [ord "7"; ord "+"; 355%Z (* t cedilla *)]);
    (pystr "z", [ord "2"; 382%Z (* z caron *); 380%Z (* z dot *)]) ].

Definition special_chars : list char :=
  pystr "!@#$%^&*-_+=".

(** [[str(d) for d in range(10) if str(d) != c]]. *)
Definition other_digits (c : char) : list char :=
  filter (λ d, d ≠ c) (pystr "0123456789").

(** [int((1.0 - similarity) * len(target))], then
    [max(1, min(num_to_modify, len(target) - 1))]. *)
Definition num_to_modify (similarity : Q) (len_target : nat) : Z :=
  let num := py_int ((1 - similarity) * inject_Z (Z.of_nat len_target))%Q in
  Z.max 1 (Z.min num (Z.of_nat len_target - 1)).

(** One round of the loop [for pos in positions]: the character is read from
    [target] and written to [chars]. *)
Definition substitute_position (target : str) (chars : str) (pos : nat)
  : M str :=
  match target !! pos with
  | None => raise IndexError
  | Some c =>
      match dict_get (str_lower c) substitutions with
      | Some options =>
          do i <- np_random_randint 0 (Z.of_nat (length options));
          do x <- lift (getitem options i);
          ret (<[pos := x]> chars)
      | None =>
          if isalpha c then
            if isupper c then
              do x <- np_random_randint 65 91;
              ret (<[pos := x]> chars)
            else
              do x <- np_random_randint 97 123;
              ret (<[pos := x]> chars)
          else if isdigit c then
            let options := other_digits c in
            do i <- np_random_randint 0 (Z.of_nat (length options));
            do x <- lift (getitem options i);
            ret (<[pos := x]> chars)
          else
            do i <- np_random_randint 0 (Z.of_nat (length special_chars));
            do x <- lift (getitem special_chars i);
            ret (<[pos := x]> chars)
      end
  end.

Fixpoint substitute_positions (target : str) (positions : list nat)
    (chars : str) : M str :=
  match positions with
  | [] => ret chars
  | pos :: positions' =>
      do chars' <- substitute_position target chars pos;
      substitute_positions target positions' chars'
  end.

Definition character_substitution_decoy (target : str) (similarity : Q)
  : M str :=
  let chars := target in
  let n := num_to_modify similarity (length target) in
  do positions <- np_random_choice (Z.of_nat (length target)) n;
  substitute_positions target positions chars.

(** *** [re.sub] on the fragment the pattern table uses

    A pattern of the table is a sequence of capturing groups, each one
    character class repeated greedily: [(\w+)(\d+)] or [(\w+)]. *)

Inductive charclass : Set := cls_w | cls_d.

Definition regex : Set := list charclass.

Definition in_class (c : charclass) (x : char) : bool :=
  match c with
  | cls_w => re_word x
  | cls_d => re_digit x
  end.

(** The length of the longest prefix of [s] inside the class. *)
Fixpoint run_length (c : charclass) (s : str) : nat :=
  match s with
  | x :: s' => if in_class c x then S (run_length c s') else 0
  | [] => 0
  end.

(** A match anchored at the start of [s]: each group first takes all it can
    and gives characters back, one at a time, while the rest fails.  The
    result is the captured groups and the text after the match. *)
Fixpoint match_here (r : regex) (s : str) : option (list str * str) :=
  match r with
  | [] => Some ([], s)
  | c :: r' =>
      (fix backtrack (n : nat) : option (list str * str) :=
         match n with
         | O => None
         | S n' =>
             match match_here r' (drop n s) with
             | Some (groups, rest) => Some (take n s :: groups, rest)
             | None => backtrack n'
             end
         end) (run_length c s)
  end.

(** A parsed replacement template. *)
Inductive titem : Set :=
  | Literal (c : char)
  | GroupRef (n : nat).

Definition is_ascii_digit (c : char) : bool := in_range 48 57 c.
Definition is_ascii_letter (c : char) : bool :=
  in_range 65 90 c || in_range 97 122 c.
Definition backslash : char := 92%Z.

(** The escapes a template may use besides group references:
    [\a \b \f \n \r \t \v \\]. *)
Definition template_escapes : list (char * char) :=
  [ (ord "a", 7); (ord "b", 8); (ord "f", 12); (ord "n", 10);
    (ord "r", 13); (ord "t", 9); (ord "v", 11); (backslash, backslash) ]%Z.

Fixpoint assoc (c : char) (l : list (char * char)) : option char :=
  match l with
  | [] => None
  | (k, v) :: l' => if (c =? k)%Z then Some v else assoc c l'
  end.

Definition group_ref (groups index : nat) (k : result (list titem))
  : result (list titem) :=
  if (index <=? groups)%nat
  then match k with
       | Ok items => Ok (GroupRef index :: items)
       | Raise e => Raise e
       end
  else Raise re_error.

Definition digit_value (c : char) : nat := Z.to_nat (c - 48).

(** The template parser of [re] (Python 3.7 and later), for templates
    without [\g<...>] references and octal escapes: a backslash before one or
    two digits is a group reference, before a known escape letter it is that
    character, before any other ASCII letter it is an error [bad escape], and
    before anything else it stands for itself.  [skip] counts characters
    already consumed by an escape. *)
Fixpoint parse_template (groups : nat) (skip : nat) (s : str)
  : result (list titem) :=
  match s with
  | [] => Ok []
  | c :: s' =>
      match skip with
      | S k => parse_template groups k s'
      | O =>
          if (c =? backslash)%Z then
            match s' with
            | [] => Raise re_error
            | d :: s'' =>
                if is_ascii_digit d then
                  match s'' with
                  | d' :: _ =>
                      if is_ascii_digit d'
                      then group_ref groups (10 * digit_value d + digit_value d')
                             (parse_template groups 2 s')
                      else group_ref groups (digit_value d)
                             (parse_template groups 1 s')
                  | [] => group_ref groups (digit_value d)
                            (parse_template groups 1 s')
                  end
                else
                  match assoc d template_escapes with
                  | Some e =>
                      match parse_template groups 1 s' with
                      | Ok items => Ok (Literal e :: items)
                      | Raise e' => Raise e'
                      end
                  | None =>
                      if is_ascii_letter d then Raise re_error
                      else
                        match parse_template groups 0 s' with
                        | Ok items => Ok (Literal c :: items)
                        | Raise e' => Raise e'
                        end
                  end
            end
          else
            match parse_template groups 0 s' with
            | Ok items => Ok (Literal c :: items)
            | Raise e' => Raise e'
            end
      end
  end.

Fixpoint expand (template : list titem) (groups : list str) : str :=
  match template with
  | [] => []
  | Literal c :: t => c :: expand t groups
  | GroupRef n :: t => default [] (groups !! (n - 1)) ++ expand t groups
  end.

(** The scan of [re.sub]: at each position not inside the previous match the
    pattern is tried; a match is replaced by the expanded template and the
    scan resumes behind it.  [skip] counts the characters of [s] that belong
    to the match just replaced.  Matches of the table's patterns are never
    empty. *)
Fixpoint sub_scan (r : regex) (template : list titem) (skip : nat) (s : str)
  : str :=
  match s with
  | [] => []
  | x :: s' =>
      match skip with
      | S k => sub_scan r template k s'
      | O =>
          match match_here r s with
          | Some (groups, rest) =>
              expand template groups
                ++ sub_scan r template (length s - length rest - 1) s'
          | None => x :: sub_scan r template 0 s'
          end
      end
  end.

(** [re.sub(pattern, repl, string)]: the template is compiled before the
    string is searched, so a bad template raises whether or not the pattern
    matches. *)
Definition re_sub (pattern : regex) (repl : str) (string : str) : result str :=
  match parse_template (length pattern) 0 repl with
  | Raise e => Raise e
  | Ok template => Ok (sub_scan pattern template 0 string)
  end.

(** The pattern table of [structural_variation_decoy]. *)
Definition patterns : list (regex * str) :=
  [ ([cls_w; cls_d], pystr "\1-\2");
    ([cls_w; cls_d], pystr "\1_\2");
    ([cls_w], pystr "\1-prime");
    ([cls_w], pystr "\1v2");
    ([cls_w], pystr "light\1");
    ([cls_w], pystr "fire\1");
    ([cls_w; cls_d], pystr "\1-\2");
    ([cls_w], pystr "\1\d") ].

Definition structural_variation_decoy (target : str) (similarity : Q)
  : M str :=
  do pattern_idx <- np_random_randint 0 (Z.of_nat (length patterns));
  do entry <- lift (getitem patterns pattern_idx);
  do result <- lift (re_sub entry.1 entry.2 target);
  if decide (result = target)
  then character_substitution_decoy target similarity
  else ret result.

Definition Qltb (x y : Q) : bool := negb (Qle_bool y x).

(** [generate_decoy(target, complexity)]. *)
Definition generate_decoy (target : str) (complexity : Z) : M str :=
  if decide (target = []) then ret []
  else
    let similarity := (1 - inject_Z complexity / 20)%Q in
    if (complexity <=? 3)%Z then
      character_substitution_decoy target similarity
    else if (complexity <=? 7)%Z then
      do x <- np_random_random;
      if Qltb x (1 # 2) then character_substitution_decoy target similarity
      else structural_variation_decoy target similarity
    else
      structural_variation_decoy target similarity.

End Generator.

(** ** Similarity: [difflib.SequenceMatcher(None, a, b).ratio()] *)

Section SequenceMatcher.
Variables a b : str.

(** The automatic junk heuristic: an element of [b] is popular, and left out
    of the index [b2j], when [b] has at least 200 elements and more than
    [len(b) // 100 + 1] of them are that element. *)
Definition popular (x : char) : bool :=
  let n := length b in
  (200 <=? n) && (n / 100 + 1 <? length (filter (λ y, y = x) b)).

Abbreviation match_triple := (nat * nat * nat)%type (only parsing).

(** One row of [find_longest_match]: for the element [ai] at index [i] of
    [a], every index [j] of [b] in [blo, bhi) holding [ai] extends the run
    that ended at [j - 1] in the row before; the best run is replaced only by
    a strictly longer one. [prevs] is the row before, shifted by one. *)
Fixpoint scan_row (ai : char) (blo bhi i j : nat) (bs : str)
    (prevs : list nat) (best : match_triple) : list nat * match_triple :=
  match bs, prevs with
  | bj :: bs', prev :: prevs' =>
      let k :=
        if (blo <=? j) && (j <? bhi) && (bj =? ai)%Z && negb (popular bj)
        then S prev else 0 in
      let best' :=
        if best.2 <? k then (i + 1 - k, j + 1 - k, k) else best in
      let '(row, best'') := scan_row ai blo bhi i (S j) bs' prevs' best' in
      (k :: row, best'')
  | _, _ => ([], best)
  end.

Fixpoint scan_rows (blo bhi i : nat) (elts : str) (row : list nat)
    (best : match_triple) : match_triple :=
  match elts with
  | [] => best
  | ai :: elts' =>
      let '(row', best') := scan_row ai blo bhi i 0 b (0 :: row) best in
      scan_rows blo bhi (S i) elts' row' best'
  end.

(** The two loops that extend the best run over elements that are not junk
    (here: over popular elements).  The junk set itself is empty, so the two
    loops over junk never run. *)
Fixpoint extend_left (fuel alo blo : nat) (best : match_triple)
  : match_triple :=
  match fuel with
  | O => best
  | S fuel' =>
      let '(besti, bestj, bestsize) := best in
      if (alo <? besti) && (blo <? bestj)
         && bool_decide (a !! (besti - 1) = b !! (bestj - 1))
      then extend_left fuel' alo blo (besti - 1, bestj - 1, S bestsize)
      else best
  end.

Fixpoint extend_right (fuel ahi bhi : nat) (best : match_triple)
  : match_triple :=
  match fuel with
  | O => best
  | S fuel' =>
      let '(besti, bestj, bestsize) := best in
      if (besti + bestsize <? ahi) && (bestj + bestsize <? bhi)
         && bool_decide (a !! (besti + bestsize) = b !! (bestj + bestsize))
      then extend_right fuel' ahi bhi (besti, bestj, S bestsize)
      else best
  end.

Definition find_longest_match (alo ahi blo bhi : nat) : match_triple :=
  let best :=
    scan_rows blo bhi alo (take (ahi - alo) (drop alo a))
      (replicate (length b) 0) (alo, blo, 0) in
  extend_right (length a) ahi bhi (extend_left (length a) alo blo best).

(** The work list of [get_matching_blocks]; [queue.pop()] takes the entry
    pushed last, the head here.  Every round either records a block, at most
    [len(a)] times and with at most two pushes each, or records nothing, so
    [2 * len(a) + 1] rounds empty the queue. *)
Fixpoint matching_blocks_loop (fuel : nat)
    (queue : list (nat * nat * nat * nat)) (blocks : list match_triple)
  : list match_triple :=
  match fuel, queue with
  | S fuel', (alo, ahi, blo, bhi) :: queue' =>
      let '(i, j, k) := find_longest_match alo ahi blo bhi in
      if k =? 0 then matching_blocks_loop fuel' queue' blocks
      else
        let q1 :=
          if (alo <? i) && (blo <? j)
          then (alo, i, blo, j) :: queue' else queue' in
        let q2 :=
          if (i + k <? ahi) && (j + k <? bhi)
          then (i + k, ahi, j + k, bhi) :: q1 else q1 in
        matching_blocks_loop fuel' q2 (blocks ++ [(i, j, k)])
  | _, _ => blocks
  end.

Definition matching_blocks : list match_triple :=
  matching_blocks_loop (2 * length a + 1) [(0, length a, 0, length b)] [].

(** [ratio()]: the sizes of the matching blocks are summed (sorting the
    blocks and merging adjacent ones, as [get_matching_blocks] does before it
    returns, leaves the sum as it is). *)
Definition ratio : Q :=
  let matches := sum_list (map snd matching_blocks) in
  let length := length a + length b in
  if length =? 0 then 1%Q
  else (2 * inject_Z (Z.of_nat matches) / inject_Z (Z.of_nat length))%Q.

End SequenceMatcher.

Definition calculate_similarity (decoy target : str) : Q := ratio decoy target.

(** ** The classifier and the effectiveness score *)

(** [CountVectorizer]: one row of n-gram counts per document. *)
Record Vectorizer : Type := { features : str → list Z }.
Definition transform (v : Vectorizer) (docs : list str) : list (list Z) :=
  map (features v) docs.

(** The fitted [RandomForestClassifier]: per row the probabilities of class
    0 (decoy) and class 1 (real). *)
Record Model : Type := { class_proba : list Z → Q * Q }.
Definition predict_proba (m : Model) (X : list (list Z)) : list (Q * Q) :=
  map (class_proba m) X.

(** The module globals [model] and [vectorizer]. *)
Record globals : Type := { model : option Model; vectorizer : option Vectorizer }.

(** [model.predict_proba(X)[0][1]] for [X = vectorizer.transform([decoy])]. *)
Definition predicted_real (m : Model) (v : Vectorizer) (decoy : str) : Q :=
  match predict_proba m (transform v [decoy]) with
  | row :: _ => row.2
  | [] => 0%Q
  end.

Definition evaluate_decoy (st : globals) (decoy target : str) : Q :=
  let similarity := calculate_similarity decoy target in
  let real_probability :=
    match model st, vectorizer st with
    | Some m, Some v => predicted_real m v decoy
    | _, _ => (1 # 2)%Q
    end in
  (similarity * (1 # 2) + real_probability * (1 # 2))%Q.

(** ** The HTTP operations *)

(** [round(x, 2)]: to the nearest hundredth, ties to the even one. *)
Definition round_half_even (x : Q) : Z :=
  let f := Qfloor x in
  let r := (x - inject_Z f)%Q in
  match (r ?= 1 # 2)%Q with
  | Lt => f
  | Gt => (f + 1)%Z
  | Eq => if Z.even f then f else (f + 1)%Z
  end.

Definition py_round2 (x : Q) : Q := Qmake (round_half_even (x * 100)) 100.

Definition Qsum (l : list Q) : Q := foldr Qplus 0%Q l.
Definition Qmax_list (x : Q) (l : list Q) : Q :=
  foldl (λ m y, if Qltb m y then y else m) x l.
Definition Qmin_list (x : Q) (l : list Q) : Q :=
  foldl (λ m y, if Qltb y m then y else m) x l.

Inductive response (A : Type) : Type :=
  | Resp200 (payload : A)
  | Resp400 (error : string)
  | Resp500 (e : exn).
Arguments Resp200 {A} payload.
Arguments Resp400 {A} error.
Arguments Resp500 {A} e.

(** *** [POST /generate] *)

(** The JSON body, with the fields the operation reads at their declared
    types; [None] is an absent key. *)
Record generate_request : Type := {
  g_target : option str;
  g_complexity : option Z;
  g_count : option Z
}.

Record generate_metrics : Type := {
  generation_time_ms : Z;
  avg_effectiveness : Q;
  max_effectiveness : Q;
  min_effectiveness : Q
}.

Record generate_payload : Type := {
  gp_decoys : list str;
  gp_target : str;
  gp_complexity : Z;
  gp_count : Z;
  gp_metrics : generate_metrics
}.

(** A row written to the table [decoys]. *)
Record decoy_row : Type := {
  decoy_text : str;
  target_text : str;
  row_complexity : Z;
  effectiveness_score : Q
}.

(** What the operation finds outside the generator: the time the request
    takes and whether the database can be opened. *)
Record environment : Type := {
  elapsed_ms : Z;
  db_connected : bool
}.

Section Operations.
Context `{UCD}.
Variable st : globals.

(** The loop [for _ in range(count)] of [generate_decoys]. *)
Fixpoint generate_loop (target : str) (complexity : Z) (count : nat)
  : M (list str * list Q) :=
  match count with
  | O => ret ([], [])
  | S count' =>
      do decoy <- generate_decoy target complexity;
      let effectiveness := evaluate_decoy st decoy target in
      do rest <- generate_loop target complexity count';
      ret (decoy :: rest.1, effectiveness :: rest.2)
  end.

Definition generate_decoys (env : environment)
    (data : option generate_request) (g : rng)
  : response generate_payload * list decoy_row :=
  match data with
  | None => (Resp400 "No JSON data provided", [])
  | Some data =>
      if bool_decide (g_target data = None ∧ g_complexity data = None
                      ∧ g_count data = None)
      then (Resp400 "No JSON data provided", [])
      else
        match g_target data with
        | None | Some [] => (Resp400 "Target string is required", [])
        | Some target =>
            let complexity := default 5%Z (g_complexity data) in
            let count := default 10%Z (g_count data) in
            let complexity :=
              if negb ((1 <=? complexity) && (complexity <=? 10))%Z
              then 5%Z else complexity in
            let count :=
              if negb ((1 <=? count) && (count <=? 100))%Z
              then 10%Z else count in
            match generate_loop target complexity (Z.to_nat count) g with
            | Raise e => (Resp500 e, [])
            | Ok ((decoys, effectiveness_scores), _) =>
                let rows :=
                  if db_connected env
                  then zip_with
                         (λ decoy score,
                            {| decoy_text := decoy; target_text := target;
                               row_complexity := complexity;
                               effectiveness_score := score |})
                         decoys effectiveness_scores
                  else [] in
                let n := inject_Z (Z.of_nat (length effectiveness_scores)) in
                let avg :=
                  match effectiveness_scores with
                  | [] => 0%Q
                  | _ => (Qsum effectiveness_scores / n)%Q
                  end in
                let metrics :=
                  {| generation_time_ms := elapsed_ms env;
                     avg_effectiveness := py_round2 avg;
                     max_effectiveness :=
                       match effectiveness_scores with
                       | [] => 0%Q
                       | x :: l => py_round2 (Qmax_list x l)
                       end;
                     min_effectiveness :=
                       match effectiveness_scores with
                       | [] => 0%Q
                       | x :: l => py_round2 (Qmin_list x l)
                       end |} in
                (Resp200 {| gp_decoys := decoys; gp_target := target;
                            gp_complexity := complexity; gp_count := count;
                            gp_metrics := metrics |}, rows)
            end
        end
  end.

(** *** [POST /evaluate] *)

Record evaluate_request : Type := {
  e_target : option str;
  e_decoys : option (list str)
}.

Record evaluation : Type := {
  ev_decoy : str;
  ev_effectiveness : Q;
  ev_similarity : Q;
  ev_real_probability : option Q
}.

Record evaluate_metrics : Type := {
  em_avg_effectiveness : Q;
  em_avg_similarity : Q
}.

Record evaluate_payload : Type := {
  ep_target : str;
  ep_evaluations : list evaluation;
  ep_metrics : evaluate_metrics
}.

(** The body of the loop [for decoy in decoys]. *)
Definition evaluate_one (target decoy : str) : evaluation :=
  let effectiveness := evaluate_decoy st decoy target in
  let similarity := calculate_similarity decoy target in
  {| ev_decoy := decoy;
     ev_effectiveness := py_round2 effectiveness;
     ev_similarity := py_round2 similarity;
     ev_real_probability :=
       match model st, vectorizer st with
       | Some m, Some v => Some (py_round2 (predicted_real m v decoy))
       | _, _ => None
       end |}.

End Operations.

(** [list.sort(key=key, reverse=reverse)]: a stable sort that compares keys
    with [<] only; for [reverse=True] the list is reversed, sorted and
    reversed again, which keeps equal keys in their first order. *)
Section Sort.
Context {A : Type} (key : A → Q).

Fixpoint insert_sorted (x : A) (l : list A) : list A :=
  match l with
  | [] => [x]
  | y :: l' =>
      if Qltb (key y) (key x) then y :: insert_sorted x l' else x :: y :: l'
  end.

Definition sort_ascending (l : list A) : list A := foldr insert_sorted [] l.

Definition list_sort (rev : bool) (l : list A) : list A :=
  if rev then reverse (sort_ascending (reverse l)) else sort_ascending l.

End Sort.

Definition evaluate_decoys_endpoint (st : globals)
    (data : option evaluate_request) : response evaluate_payload :=
  match data with
  | None => Resp400 "No JSON data provided"
  | Some data =>
      if bool_decide (e_target data = None ∧ e_decoys data = None)
      then Resp400 "No JSON data provided"
      else
        let target := e_target data in
        let decoys := default [] (e_decoys data) in
        match target, decoys with
        | None, _ | Some [], _ | _, [] =>
            Resp400 "Target and decoys are required"
        | Some target, _ =>
            let results := map (evaluate_one st target) decoys in
            let results := list_sort ev_effectiveness true results in
            let n := inject_Z (Z.of_nat (length results)) in
            Resp200
              {| ep_target := target;
                 ep_evaluations := results;
                 ep_metrics :=
                   {| em_avg_effectiveness :=
                        py_round2 (Qsum (map ev_effectiveness results) / n);
                      em_avg_similarity :=
                        py_round2 (Qsum (map ev_similarity results) / n) |}
              |}
        end
  end.

(** ** The module [random] of the standard library

    The routes defined a second time in [ai/app.py] and the whole of
    [ai/simple_app.py] draw from Python's own generator.  It is read off the
    same kind of tape as numpy's. *)

(** [random.random()]. *)
Definition random_random : M Q :=
  do r <- draw;
  ret (Qmake (r mod random_bits) (Z.to_pos random_bits)).

(** [random.uniform(a, b)]: [a + (b - a) * random()]. *)
Definition random_uniform (a b : Q) : M Q :=
  do x <- random_random;
  ret (a + (b - a) * x)%Q.

(** [random.randint(a, b)]: an integer of [a, b], both ends included. *)
Definition random_randint (a b : Z) : M Z :=
  if (b <? a)%Z then raise ValueError
  else do r <- draw; ret (a + r mod (b - a + 1))%Z.

(** [random.choice(seq)]. *)
Definition random_choice {A} (seq : list A) : M A :=
  match seq with
  | [] => raise IndexError
  | _ => do r <- draw; lift (getitem seq (r mod Z.of_nat (length seq)))
  end.

(** [max(a, b)] and [min(a, b)] of two floats: the first argument unless the
    second is strictly beyond it. *)
Definition py_max (a b : Q) : Q := if Qltb a b then b else a.
Definition py_min (a b : Q) : Q := if Qltb b a then b else a.

(** [str(n)] of an integer. *)
Definition py_str (n : Z) : str :=
  pystr (DecimalString.NilZero.string_of_int (Z.to_int n)).

(** [s.startswith(prefix)]. *)
Definition startswith (s prefix : str) : bool :=
  bool_decide (take (length prefix) s = prefix).

(** [string.ascii_letters + string.digits]. *)
Definition ascii_letters_digits : list char :=
  pystr "abcdefghijklmnopqrstuvwxyzABCDEFGHIJKLMNOPQRSTUVWXYZ0123456789".

(** ** The second definitions of [ai/app.py]

    After the model-backed routes the file defines [/generate] and
    [/evaluate] once more, over a helper that is also called
    [generate_decoys]. *)

Module Second.

Record decoy : Type := {
  value : str;
  similarity : Q;
  complexity : Z
}.

(** The loop [for _ in range(change_count)] of the last branch. *)
Fixpoint change_chars (change_count : nat) (chars : str) : M str :=
  match change_count with
  | O => ret chars
  | S n =>
      do pos <- random_randint 0 (Z.of_nat (length chars) - 1);
      do x <- random_choice ascii_letters_digits;
      change_chars n (<[Z.to_nat pos := x]> chars)
  end.

(** The decoy text of one round of the loop of [generate_decoys]. *)
Definition decoy_text (target : str) (change_factor : Q) : M str :=
  if startswith target (pystr "kyber") then
    do v <- random_choice [pystr "512"; pystr "768"; pystr "1024"; pystr "1536"];
    ret (pystr "kyber" ++ v)
  else if startswith target (pystr "saber") then
    random_choice [pystr "lightsaber"; pystr "saber"; pystr "firesaber"]
  else if startswith target (pystr "ntru") then
    do params <- random_choice [pystr "hrss701"; pystr "hps2048509";
                                pystr "hps2048677"; pystr "hps4096821"];
    ret (pystr "ntru-" ++ params)
  else if startswith target (pystr "dilithium") then
    do mode <- random_randint 1 5;
    ret (pystr "dilithium-mode" ++ py_str mode)
  else
    let chars := target in
    let change_count :=
      Z.max 1 (py_int (inject_Z (Z.of_nat (length target)) * change_factor
                       * (1 # 2))%Q) in
    change_chars (Z.to_nat change_count) chars.

(** The loop [for i in range(count)] of [generate_decoys(target, complexity,
    count)]. *)
Fixpoint generate_decoys_loop (target : str) (complexity : Z) (count : nat)
  : M (list decoy) :=
  match count with
  | O => ret []
  | S n =>
      let change_factor := (inject_Z complexity / 10)%Q in
      do text <- decoy_text target change_factor;
      do u <- random_uniform (1 # 2) 1;
      let similarity := (1 - change_factor * u)%Q in
      let similarity := py_max (1 # 10) (py_min (9 # 10) similarity) in
      do rest <- generate_decoys_loop target complexity n;
      ret ({| value := text; similarity := similarity;
              complexity := complexity |} :: rest)
  end.

Definition generate_decoys (target : str) (complexity count : Z)
  : M (list decoy) :=
  generate_decoys_loop target complexity (Z.to_nat count).

Record generate_payload : Type := {
  decoys : list decoy;
  model_version : string;
  metadata_complexity : Z;
  generation_time : string
}.

(** [generate()], the second handler of [POST /generate]; [now] is the
    formatted time of the answer. *)
Definition generate (now : string) (data : generate_request) (g : rng)
  : response generate_payload :=
  let target := default (pystr "default") (g_target data) in
  let count := default 5%Z (g_count data) in
  let complexity := default 5%Z (g_complexity data) in
  match generate_decoys target complexity count g with
  | Raise e => Resp500 e
  | Ok (decoys, _) =>
      Resp200 {| decoys := decoys; model_version := "0.1.0";
                 metadata_complexity := complexity; generation_time := now |}
  end.

Record evaluation_result : Type := {
  er_decoy : str;
  er_similarity : Q;
  er_effectiveness : Q
}.

(** The loop [for decoy in decoys] of [evaluate()], the second handler of
    [POST /evaluate]. *)
Fixpoint evaluate_loop (decoys : list str) : M (list evaluation_result) :=
  match decoys with
  | [] => ret []
  | decoy :: decoys' =>
      do similarity <- random_uniform (1 # 2) (95 # 100);
      do rest <- evaluate_loop decoys';
      ret ({| er_decoy := decoy; er_similarity := similarity;
              er_effectiveness := (similarity * (1 - similarity))%Q |} :: rest)
  end.

Definition evaluate (data : evaluate_request) (g : rng)
  : response (list evaluation_result) :=
  let decoys := default [] (e_decoys data) in
  match evaluate_loop decoys g with
  | Raise e => Resp500 e
  | Ok (results, _) => Resp200 results
  end.

End Second.

(** ** [ai/simple_app.py] *)

Module SimpleApp.

(** [calculate_similarity(original, decoy)]: the share of positions at which
    the two strings agree. *)
Definition calculate_similarity (original decoy : str) : Q :=
  match original, decoy with
  | [], _ | _, [] => 0%Q
  | _, _ =>
      let common :=
        length (filter (λ ab : Z * Z, ab.1 = ab.2) (zip original decoy)) in
      let total := length original `max` length decoy in
      (inject_Z (Z.of_nat common) / inject_Z (Z.of_nat total))%Q
  end.

Inductive operation : Set := substitute | insert | delete | swap.

(** One round of the loop of [mutate_string], after the test [if not chars]. *)
Definition mutate_once (chars : str) : M str :=
  do op <- random_choice [substitute; insert; delete; swap];
  match op with
  | substitute =>
      if bool_decide (chars ≠ []) then
        do pos <- random_randint 0 (Z.of_nat (length chars) - 1);
        do x <- random_choice ascii_letters_digits;
        ret (<[Z.to_nat pos := x]> chars)
      else ret chars
  | insert =>
      do pos <- random_randint 0 (Z.of_nat (length chars));
      do x <- random_choice ascii_letters_digits;
      ret (take (Z.to_nat pos) chars ++ x :: drop (Z.to_nat pos) chars)
  | delete =>
      if (1 <? length chars)%nat then
        do pos <- random_randint 0 (Z.of_nat (length chars) - 1);
        ret (base.delete (Z.to_nat pos) chars)
      else ret chars
  | swap =>
      if (1 <? length chars)%nat then
        do pos1 <- random_randint 0 (Z.of_nat (length chars) - 1);
        do pos2 <- random_randint 0 (Z.of_nat (length chars) - 1);
        match chars !! Z.to_nat pos1, chars !! Z.to_nat pos2 with
        | Some c1, Some c2 =>
            ret (<[Z.to_nat pos2 := c1]> (<[Z.to_nat pos1 := c2]> chars))
        | _, _ => raise IndexError
        end
      else ret chars
  end.

Fixpoint mutate_loop (mutations : nat) (chars : str) : M str :=
  match mutations with
  | O => ret chars
  | S n =>
      match chars with
      | [] => ret chars
      | _ => do chars' <- mutate_once chars; mutate_loop n chars'
      end
  end.

(** [1 + int(complexity / 3)]. *)
Definition mutations (complexity : Z) : Z :=
  (1 + py_int (inject_Z complexity / 3)%Q)%Z.

Definition mutate_string (s : str) (complexity : Z) : M str :=
  mutate_loop (Z.to_nat (mutations complexity)) s.

Record decoy : Type := {
  value : str;
  similarity : Q
}.

(** The loop [for i in range(count)] of [generate_simple_decoys], from round
    [i] on. *)
Fixpoint generate_simple_loop (target : str) (complexity count : Z)
    (i : Z) (rounds : nat) : M (list decoy) :=
  match rounds with
  | O => ret []
  | S n =>
      let similarity :=
        (1 - inject_Z complexity / 10 - inject_Z i / inject_Z (count * 2))%Q in
      let similarity :=
        if Qltb similarity (1 # 10) then (1 # 10)%Q else similarity in
      do text <- mutate_string target complexity;
      do rest <- generate_simple_loop target complexity count (i + 1) n;
      ret ({| value := text; similarity := similarity |} :: rest)
  end.

Definition generate_simple_decoys (target : str) (complexity count : Z)
  : M (list decoy) :=
  generate_simple_loop target complexity count 0 (Z.to_nat count).

(** What reaches the client: an answer, or an exception nothing catches. *)
Inductive uncaught : Set :=
  | Builtin (e : exn)
  | ZeroDivisionError.

Inductive answer (A : Type) : Type :=
  | Answer200 (payload : A)
  | Answer400 (error : string)
  | Answer500 (e : uncaught).
Arguments Answer200 {A} payload.
Arguments Answer400 {A} error.
Arguments Answer500 {A} e.

(** [POST /decoys/generate]. *)
Definition generate_decoys (data : option generate_request) (g : rng)
  : answer (list decoy) :=
  match data with
  | None => Answer400 "Target is required"
  | Some data =>
      match g_target data with
      | None => Answer400 "Target is required"
      | Some target =>
          let complexity := default 5%Z (g_complexity data) in
          let count := default 5%Z (g_count data) in
          match generate_simple_decoys target complexity count g with
          | Raise e => Answer500 (Builtin e)
          | Ok (decoys, _) => Answer200 decoys
          end
      end
  end.

Inductive explanation : Set := convincing | reasonable | unconvincing.

(** [get_explanation]: which of its three sentences is returned. *)
Definition get_explanation (similarity effectiveness : Q) : explanation :=
  if Qltb (8 # 10) effectiveness then convincing
  else if Qltb (6 # 10) effectiveness then reasonable
  else unconvincing.

Record evaluation : Type := {
  ev_decoy : str;
  ev_similarity : Q;
  ev_effectiveness : Q;
  ev_explanation : explanation
}.

Record evaluate_request : Type := {
  original : option str;
  decoys : option (list str)
}.

(** The loop [for i, decoy in enumerate(decoys)] of [evaluate]. *)
Fixpoint evaluate_loop (original : str) (i : nat) (decoys : list str)
  : M (list evaluation) :=
  match decoys with
  | [] => ret []
  | decoy :: decoys' =>
      let similarity := calculate_similarity original decoy in
      do effectiveness <- random_uniform (6 # 10) (95 # 100);
      let effectiveness :=
        if (i =? 0)%nat then
          let e := (effectiveness + (1 # 10))%Q in
          if Qltb 1 e then 1%Q else e
        else effectiveness in
      do rest <- evaluate_loop original (S i) decoys';
      ret ({| ev_decoy := decoy; ev_similarity := similarity;
              ev_effectiveness := effectiveness;
              ev_explanation := get_explanation similarity effectiveness |}
           :: rest)
  end.

Record evaluate_payload : Type := {
  evaluations : list evaluation;
  overall_effectiveness : Q
}.

(** [POST /evaluate]. *)
Definition evaluate (data : option evaluate_request) (g : rng)
  : answer evaluate_payload :=
  match data with
  | None => Answer400 "Both original and decoys are required"
  | Some data =>
      match original data, decoys data with
      | Some original, Some decoys =>
          match evaluate_loop original 0 decoys g with
          | Raise e => Answer500 (Builtin e)
          | Ok (evaluation, _) =>
              match evaluation with
              | [] => Answer500 ZeroDivisionError
              | _ =>
                  Answer200
                    {| evaluations := evaluation;
                       overall_effectiveness :=
                         (Qsum (map ev_effectiveness evaluation)
                          / inject_Z (Z.of_nat (length evaluation)))%Q |}
              end
          end
      | _, _ => Answer400 "Both original and decoys are required"
      end
  end.

End SimpleApp.

(** ** The model lifecycle of [ai/app.py] *)

(** The two pickle files under [models/]. *)
Record storage : Type := {
  model_file : option Model;
  vectorizer_file : option Vectorizer
}.

(** The names the new model is trained on. *)
Definition sample_real : list str :=
  map pystr
    [ "kyber768"; "kyber1024"; "saber"; "ntru"; "dilithium";
      "falcon512"; "falcon1024"; "sphincs+"; "picnic"; "mceliece348864";
      "frodokem640"; "frodokem976"; "frodokem1344"; "bike1"; "bike2";
      "hqc128"; "hqc192"; "hqc256" ]%string.

Section Lifecycle.
Context `{UCD}.

(** [CountVectorizer(...).fit_transform] and [RandomForestClassifier.fit];
    the forest draws from numpy's generator. *)
Variable fit_vectorizer : list str → Vectorizer.
Variable fit_model : list (list Z) → list Z → M Model.

(** The inner loop [for i in range(3)] for one name. *)
Fixpoint three_fakes (real : str) (n : nat) : M (list str) :=
  match n with
  | O => ret []
  | S n' =>
      do fake <- character_substitution_decoy real (7 # 10);
      do rest <- three_fakes real n';
      ret (fake :: rest)
  end.

(** The loop [for real in sample_real] that fills [sample_fake]. *)
Fixpoint make_sample_fake (reals : list str) : M (list str) :=
  match reals with
  | [] => ret []
  | real :: reals' =>
      do fakes <- three_fakes real 3;
      do rest <- make_sample_fake reals';
      ret (fakes ++ rest)
  end.

(** [load_or_create_model()]: the new globals and the files it leaves. *)
Definition load_or_create_model (fs : storage) : M (globals * storage) :=
  match model_file fs, vectorizer_file fs with
  | Some m, Some v =>
      ret ({| model := Some m; vectorizer := Some v |}, fs)
  | _, _ =>
      do sample_fake <- make_sample_fake sample_real;
      let all_data := sample_real ++ sample_fake in
      let v := fit_vectorizer all_data in
      let X := transform v all_data in
      let y := replicate (length sample_real) 1%Z
               ++ replicate (length sample_fake) 0%Z in
      do m <- fit_model X y;
      ret ({| model := Some m; vectorizer := Some v |},
           {| model_file := Some m; vectorizer_file := Some v |})
  end.

(** [before_request()]. *)
Definition before_request (st : globals) (fs : storage)
  : M (globals * storage) :=
  match model st with
  | None => load_or_create_model fs
  | Some _ => ret (st, fs)
  end.

End Lifecycle.

(** ** Vocabulary of the statements *)


(** The characters a position holding [c] may be rewritten to. *)
Definition candidates `{UCD} (c : char) : list char :=
  match dict_get (str_lower c) substitutions with
  | Some options => options
  | None =>
      if isalpha c then
        if isupper c then seqZ 65 26 else seqZ 97 26
      else if isdigit c then other_digits c
      else special_chars
  end.

(** The number of positions at which two strings differ. *)
Definition differing_positions (s t : str) : nat :=
  length (filter (λ i, s !! i ≠ t !! i) (seq 0 (length s `max` length t))).



(** The state before any model is loaded or trained, and a state whose
    classifier gives every string the same probability [p] of being real. *)
Definition no_model : globals := {| model := None; vectorizer := None |}.

Definition constant_model (p : Q) : globals :=
  {| model := Some {| class_proba := λ _, ((1 - p)%Q, p) |};
     vectorizer := Some {| features := λ _, [] |} |}.

(** A request to evaluate that names no target, an empty target, no decoys
    or an empty list of decoys (or that has no body at all). *)
Definition invalid_evaluate_request (data : option evaluate_request) : Prop :=
  match data with
  | None => True
  | Some data =>
      e_target data = None ∨ e_target data = Some []
      ∨ e_decoys data = None ∨ e_decoys data = Some []
  end.


(** A request to generate that has no body, no target or an empty target. *)
Definition invalid_generate_request (data : option generate_request) : Prop :=
  match data with
  | None => True
  | Some data => g_target data = None ∨ g_target data = Some []
  end.

(** A template lengthens a match of [n] groups when its expansion is longer
    than the groups together. *)
Definition lengthens (n : nat) (template : list titem) : Prop :=
  ∀ groups : list str,
    length groups = n → length (concat groups) < length (expand template groups).

(** A state whose classifier, if there is one, gives every row a probability
    of being real between 0 and 1. *)
Definition calibrated (st : globals) : Prop :=
  ∀ (m : Model) (x : list Z),
    model st = Some m → (0 <= (class_proba m x).2)%Q ∧ ((class_proba m x).2 <= 1)%Q.

(** The number of consecutive elements of [s] just before index [t] that the
    junk heuristic of [SequenceMatcher] keeps in its index. *)
Fixpoint kept_run (s : str) (t : nat) : nat :=
  match t with
  | O => 0
  | S t' =>
      match s !! t' with
      | Some c => if popular s c then 0 else S (kept_run s t')
      | None => 0
      end
  end.

(** * Properties *)

(** ** The random primitives *)

Lemma randint_ok (low high : Z) (g : rng) :
  (low < high)%Z →
  np_random_randint low high g
  = Ok ((low + hd 0 g mod (high - low))%Z, tail g).
Proof.
  intros Hlt. unfold np_random_randint.
  destruct (Z.ltb_spec low high); [reflexivity | lia].
Qed.

Lemma randint_range (low high : Z) (g g' : rng) (x : Z) :
  np_random_randint low high g = Ok (x, g') → (low ≤ x < high)%Z.
Proof.
  unfold np_random_randint.
  destruct (Z.ltb_spec low high) as [Hlt | Hge]; [| discriminate].
  cbv [bind draw ret]. intros [= <- _].
  pose proof (Z.mod_pos_bound (hd 0%Z g) (high - low)). lia.
Qed.

Lemma getitem_ok {A} (l : list A) (i : Z) :
  (0 ≤ i < Z.of_nat (length l))%Z →
  ∃ x, getitem l i = Ok x ∧ l !! Z.to_nat i = Some x.
Proof.
  intros Hi. unfold getitem.
  destruct (Z.ltb_spec i 0); [lia |].
  destruct (Z.leb_spec 0 i); [| lia].
  destruct (Z.ltb_spec i (Z.of_nat (length l))); [| lia]. cbn.
  destruct (lookup_lt_is_Some_2 l (Z.to_nat i)) as [x Hx]; [lia |].
  exists x. by rewrite Hx.
Qed.

(** Drawing a subscript and reading the option at it: one draw, and the
    result is one of the options. *)
Lemma pick_option {B} (options : list char) (k : char → B) (g : rng) :
  options ≠ [] →
  ∃ x, x ∈ options ∧
    (do i <- np_random_randint 0 (Z.of_nat (length options));
     do x <- lift (getitem options i);
     ret (k x)) g = Ok (k x, tail g).
Proof.
  intros Hne.
  assert (0 < Z.of_nat (length options))%Z as Hlen
    by (destruct options; [done | cbn; lia]).
  unfold bind at 1. rewrite randint_ok by done.
  set (i := (0 + _)%Z).
  assert (0 ≤ i < Z.of_nat (length options))%Z as Hi.
  { subst i. pose proof (Z.mod_pos_bound (hd 0%Z g) (Z.of_nat (length options) - 0)).
    lia. }
  destruct (getitem_ok options i Hi) as (x & Hget & Hx).
  exists x. split; [by eapply list_elem_of_lookup_2 |].
  unfold bind, lift, ret. by rewrite Hget.
Qed.

Lemma sample_spec (size : nat) : ∀ (pool : list nat) (g : rng),
  size ≤ length pool →
  ∃ ps g', sample pool size g = Ok (ps, g')
    ∧ length ps = size
    ∧ (∀ p, p ∈ ps → p ∈ pool)
    ∧ (NoDup pool → NoDup ps).
Proof.
  induction size as [| size IH]; intros pool g Hsize.
  - exists [], g. repeat split; [by intros p ?%elem_of_nil | constructor].
  - cbn [sample]. unfold bind at 1, draw.
    set (i := Z.to_nat _).
    assert (i < length pool) as Hi.
    { subst i. pose proof (Z.mod_pos_bound (hd 0%Z g) (Z.of_nat (length pool))).
      lia. }
    destruct (lookup_lt_is_Some_2 pool i Hi) as [p Hp]. rewrite Hp.
    destruct (IH (delete i pool) (tail g)) as (ps & g' & Hs & Hlen & Hin & Hnd).
    { rewrite length_delete by eauto. lia. }
    exists (p :: ps), g'. unfold bind, ret. rewrite Hs.
    split; [done |]. split; [cbn; lia |]. split.
    + intros q [-> | Hq]%elem_of_cons.
      * by eapply list_elem_of_lookup_2.
      * eapply list_elem_of_delete_inv. by apply Hin.
    + intros Hpool. constructor.
      * intros Hq%Hin. rewrite delete_take_drop in Hq.
        rewrite <- (take_drop_middle pool i p Hp) in Hpool.
        apply NoDup_app in Hpool as (_ & Hd & [Hp' _]%NoDup_cons).
        apply elem_of_app in Hq as [Hq | Hq]; [| done].
        apply (Hd p Hq). left.
      * apply Hnd. eapply sublist_NoDup; [done | apply sublist_delete].
Qed.

Lemma choice_spec (n : nat) (size : Z) (g : rng) :
  (1 ≤ size ≤ Z.of_nat n)%Z →
  ∃ positions g',
    np_random_choice (Z.of_nat n) size g = Ok (positions, g')
    ∧ Z.of_nat (length positions) = size
    ∧ NoDup positions
    ∧ Forall (λ pos, pos < n) positions.
Proof.
  intros Hsize. unfold np_random_choice.
  destruct (Z.ltb_spec size 0); [lia |].
  destruct (Z.leb_spec (Z.of_nat n) 0); [lia |]. cbn [andb].
  destruct (Z.ltb_spec (Z.of_nat n) size); [lia |].
  rewrite Nat2Z.id.
  destruct (sample_spec (Z.to_nat size) (seq 0 n) g)
    as (ps & g' & Hs & Hlen & Hin & Hnd).
  { rewrite length_seq. lia. }
  exists ps, g'. split; [done |]. split; [lia |].
  split; [apply Hnd, NoDup_seq |].
  apply Forall_forall. intros p Hp%Hin%elem_of_seq. lia.
Qed.

(** *** Uniformity of the positions drawn *)




(** ** [character_substitution_decoy] *)

Section GeneratorFacts.
Context `{UCD}.

Lemma substitutions_options (k : str) (options : list char) :
  dict_get k substitutions = Some options → options ≠ [].
Proof.
  unfold substitutions. cbn [dict_get].
  repeat case_decide; intros [= <-]; done.
Qed.

Lemma other_digits_nonempty (c : char) : other_digits c ≠ [].
Proof.
  unfold other_digits.
  destruct (decide (c = 48%Z)) as [-> | Hne]; [done |].
  cbn [pystr]. rewrite filter_cons_True by done. done.
Qed.

Lemma substitute_position_spec (target chars : str) (pos : nat) (g : rng)
    (c : char) :
  target !! pos = Some c →
  ∃ x, x ∈ candidates c
    ∧ substitute_position target chars pos g
      = Ok (<[pos := x]> chars, tail g).
Proof.
  intros Hc. unfold substitute_position, candidates. rewrite Hc.
  destruct (dict_get (str_lower c) substitutions) as [options |] eqn:Hd.
  { apply pick_option. by eapply substitutions_options. }
  destruct (isalpha c).
  - destruct (isupper c).
    + unfold bind, ret. rewrite randint_ok by lia.
      eexists; split; [| reflexivity].
      pose proof (Z.mod_pos_bound (hd 0%Z g) (91 - 65)). apply elem_of_seqZ. lia.
    + unfold bind, ret. rewrite randint_ok by lia.
      eexists; split; [| reflexivity].
      pose proof (Z.mod_pos_bound (hd 0%Z g) (123 - 97)). apply elem_of_seqZ. lia.
  - destruct (isdigit c).
    + apply pick_option, other_digits_nonempty.
    + by apply pick_option.
Qed.

Lemma substitute_positions_spec (target : str) (positions : list nat) :
  ∀ (chars : str) (g : rng),
  length chars = length target →
  NoDup positions → Forall (λ pos, pos < length target) positions →
  ∃ r g', substitute_positions target positions chars g = Ok (r, g')
    ∧ length r = length target
    ∧ (∀ i, i ∉ positions → r !! i = chars !! i)
    ∧ (∀ pos, pos ∈ positions →
         ∃ c x, target !! pos = Some c ∧ r !! pos = Some x
                ∧ x ∈ candidates c).
Proof.
  induction positions as [| pos positions IH]; intros chars g Hlen Hnd Hall.
  - exists chars, g. split; [done |]. split; [done |]. split; [done |].
    by intros ? ?%elem_of_nil.
  - apply NoDup_cons in Hnd as [Hpos Hnd].
    apply Forall_cons in Hall as [Hlt Hall].
    destruct (lookup_lt_is_Some_2 target pos Hlt) as [c Hc].
    destruct (substitute_position_spec target chars pos g c Hc)
      as (x & Hx & Hstep).
    destruct (IH (<[pos := x]> chars) (tail g)) as (r & g' & Hr & Hrl & Hout & Hin);
      [by rewrite length_insert | done | done |].
    exists r, g'. cbn [substitute_positions]. unfold bind. rewrite Hstep.
    split; [done |]. split; [done |]. split.
    + intros i Hi. apply not_elem_of_cons in Hi as [Hne Hi].
      rewrite (Hout i Hi). by apply list_lookup_insert_ne.
    + intros q [-> | Hq]%elem_of_cons; [| by apply Hin].
      exists c, x. split; [done |]. split; [| done].
      rewrite (Hout pos Hpos). apply list_lookup_insert_eq. lia.
Qed.

Lemma num_to_modify_bounds (similarity : Q) (n : nat) :
  1 ≤ n →
  (1 ≤ num_to_modify similarity n ≤ Z.of_nat n)%Z
  ∧ (2 ≤ n → (num_to_modify similarity n ≤ Z.of_nat n - 1)%Z).
Proof. unfold num_to_modify. lia. Qed.

(** What a call on a non-empty target does, step by step. *)
Lemma character_substitution_decoy_spec (target : str) (similarity : Q)
    (g : rng) :
  target ≠ [] →
  ∃ positions g1 r g2,
    np_random_choice (Z.of_nat (length target))
      (num_to_modify similarity (length target)) g = Ok (positions, g1)
    ∧ character_substitution_decoy target similarity g = Ok (r, g2)
    ∧ Z.of_nat (length positions) = num_to_modify similarity (length target)
    ∧ NoDup positions
    ∧ Forall (λ pos, pos < length target) positions
    ∧ length r = length target
    ∧ (∀ i, i ∉ positions → r !! i = target !! i)
    ∧ (∀ pos, pos ∈ positions →
         ∃ c x, target !! pos = Some c ∧ r !! pos = Some x
                ∧ x ∈ candidates c).
Proof.
  intros Hne.
  assert (1 ≤ length target) as Hlen by (destruct target; [done | cbn; lia]).
  destruct (choice_spec (length target)
              (num_to_modify similarity (length target)) g)
    as (positions & g1 & Hch & Hn & Hnd & Hall).
  { apply num_to_modify_bounds, Hlen. }
  destruct (substitute_positions_spec target positions target g1)
    as (r & g2 & Hr & Hrl & Hout & Hin); [done .. |].
  exists positions, g1, r, g2.
  unfold character_substitution_decoy, bind. rewrite Hch.
  by repeat split.
Qed.

End GeneratorFacts.

Section MutationClaims.
Context `{UCD}.

Lemma character_substitution_decoy_empty (similarity : Q) (g : rng) :
  character_substitution_decoy [] similarity g = Raise ValueError.
Proof.
  unfold character_substitution_decoy, bind.
  assert (num_to_modify similarity (length (@nil Z)) = 1%Z) as ->
    by (unfold num_to_modify; cbn [length]; lia).
  reflexivity.
Qed.


(** C10: on a non-empty string, whatever the similarity target and the random
    draws, [character_substitution_decoy] returns, and what it returns has
    exactly the length of its input: characters are only replaced in place.
    So the decoys [generate_decoy] makes at a complexity of at most 3 have
    the length of the target. *)
Theorem character_substitution_preserves_length (target : str)
    (similarity : Q) (g : rng) :
  target ≠ [] →
  (∃ r g', character_substitution_decoy target similarity g = Ok (r, g')
     ∧ length r = length target)
  ∧ (∀ complexity, (complexity ≤ 3)%Z →
       ∃ r g', generate_decoy target complexity g = Ok (r, g')
         ∧ length r = length target).
Proof.
  intros Hne.
  assert (∀ sim, ∃ r g', character_substitution_decoy target sim g = Ok (r, g')
                   ∧ length r = length target) as Hsame.
  { intros sim.
    destruct (character_substitution_decoy_spec target sim g Hne)
      as (positions & g1 & r & g2 & _ & Hr & _ & _ & _ & Hlen & _).
    by exists r, g2. }
  split; [apply Hsame |].
  intros complexity Hc. unfold generate_decoy. rewrite decide_False by done.
  destruct (Z.leb_spec complexity 3); [apply Hsame | lia].
Qed.


(** C8, as amended: the empty target is handled by the guard of
    [generate_decoy], which returns the empty string without drawing and
    without calling a mutation; [character_substitution_decoy] itself asks
    numpy for one position out of none when given the empty string, which
    raises [ValueError]. *)
Theorem empty_target_is_guarded (complexity : Z) (similarity : Q) (g : rng) :
  generate_decoy [] complexity g = Ok ([], g)
  ∧ character_substitution_decoy [] similarity g = Raise ValueError.
Proof.
  split; [reflexivity | apply character_substitution_decoy_empty].
Qed.


(** Beyond the claims: the last entry of the pattern table has the
    replacement template [\1\d], which [re] rejects as a bad escape when it
    compiles it; whenever that entry is drawn the structural variation raises,
    whatever the target. *)
Theorem structural_variation_bad_template (target : str) (similarity : Q)
    (g : rng) :
  (hd 0%Z g mod 8 = 7)%Z →
  structural_variation_decoy target similarity g = Raise re_error.
Proof.
  intros Hidx. unfold structural_variation_decoy, bind.
  rewrite randint_ok by (cbn; lia).
  change (Z.of_nat (length patterns) - 0)%Z with 8%Z. rewrite Hidx.
  reflexivity.
Qed.

(** ** [generate_decoy] *)

Lemma random_below_half (g : rng) :
  ∃ x, np_random_random g = Ok (x, tail g)
    ∧ Qltb x (1 # 2) = (hd 0%Z g mod 2 ^ 53 <? 2 ^ 52)%Z.
Proof.
  eexists. split; [reflexivity |].
  unfold Qltb, Qle_bool. cbn [Qnum Qden].
  change (Z.pos (Z.to_pos random_bits)) with (2 ^ 53)%Z.
  change random_bits with (2 ^ 53)%Z.
  destruct (Z.leb_spec (1 * 2 ^ 53) (hd 0%Z g mod 2 ^ 53 * 2));
    destruct (Z.ltb_spec (hd 0%Z g mod 2 ^ 53) (2 ^ 52)); try done; lia.
Qed.

(** C3: for a non-empty target and a complexity of 1 to 10, [generate_decoy]
    passes the similarity [1 - complexity / 20] on and picks its strategy by
    the complexity: up to 3 character substitution; from 4 to 7 character
    substitution when the 53-bit draw [k] of [np.random.random()] is below
    [2^52] (that is, when [k / 2^53 < 0.5]) and the structural variation
    otherwise; from 8 on the structural variation.  The draws [k] and
    [k + 2^52] pair the two outcomes off one to one, so each has probability
    one half. *)
Theorem generate_decoy_strategy (target : str) (complexity : Z) (g : rng) :
  target ≠ [] → (1 ≤ complexity ≤ 10)%Z →
  let similarity := (1 - inject_Z complexity / 20)%Q in
  let k := (hd 0%Z g mod 2 ^ 53)%Z in
  ((complexity ≤ 3)%Z →
     generate_decoy target complexity g
     = character_substitution_decoy target similarity g)
  ∧ ((4 ≤ complexity ≤ 7)%Z →
       (0 ≤ k < 2 ^ 53)%Z
       ∧ ((k < 2 ^ 52)%Z →
            generate_decoy target complexity g
            = character_substitution_decoy target similarity (tail g))
       ∧ ((2 ^ 52 ≤ k)%Z →
            generate_decoy target complexity g
            = structural_variation_decoy target similarity (tail g))
       ∧ (∀ r g', (0 ≤ r < 2 ^ 52)%Z →
            generate_decoy target complexity (r :: g')
            = character_substitution_decoy target similarity g'
            ∧ generate_decoy target complexity ((r + 2 ^ 52)%Z :: g')
              = structural_variation_decoy target similarity g'))
  ∧ ((8 ≤ complexity)%Z →
       generate_decoy target complexity g
       = structural_variation_decoy target similarity g).
Proof.
  intros Hne Hc similarity k.
  assert (∀ h, (4 ≤ complexity ≤ 7)%Z →
            generate_decoy target complexity h
            = if (hd 0%Z h mod 2 ^ 53 <? 2 ^ 52)%Z
              then character_substitution_decoy target similarity (tail h)
              else structural_variation_decoy target similarity (tail h))
    as Hmid.
  { intros h Hc'. unfold generate_decoy. rewrite decide_False by done.
    destruct (Z.leb_spec complexity 3); [lia |].
    destruct (Z.leb_spec complexity 7); [| lia].
    destruct (random_below_half h) as (x & Hx & Hlt).
    unfold bind. rewrite Hx, Hlt. by destruct (_ <? _)%Z. }
  split; [| split].
  - intros Hlow. unfold generate_decoy. rewrite decide_False by done.
    destruct (Z.leb_spec complexity 3); [reflexivity | lia].
  - intros Hmid'. split; [apply Z.mod_pos_bound; lia |].
    split; [| split].
    + intros Hk. rewrite Hmid by done. subst k.
      destruct (Z.ltb_spec (hd 0%Z g mod 2 ^ 53) (2 ^ 52)); [done | lia].
    + intros Hk. rewrite Hmid by done. subst k.
      destruct (Z.ltb_spec (hd 0%Z g mod 2 ^ 53) (2 ^ 52)); [lia | done].
    + intros r g' Hr. rewrite !Hmid by done. cbn [hd tail].
      rewrite (Z.mod_small r), (Z.mod_small (r + 2 ^ 52)) by lia.
      destruct (Z.ltb_spec r (2 ^ 52)); [| lia].
      destruct (Z.ltb_spec (r + 2 ^ 52) (2 ^ 52)); [lia | done].
  - intros Hhigh. unfold generate_decoy. rewrite decide_False by done.
    destruct (Z.leb_spec complexity 3); [lia |].
    destruct (Z.leb_spec complexity 7); [lia | reflexivity].
Qed.

End MutationClaims.

(** ** [list.sort] *)

Lemma Qltb_lt (x y : Q) : Qltb x y = true ↔ (x < y)%Q.
Proof.
  unfold Qltb. rewrite negb_true_iff, <- not_true_iff_false, Qle_bool_iff.
  split; [apply Qnot_le_lt | apply Qlt_not_le].
Qed.

Lemma Qltb_ge (x y : Q) : Qltb x y = false ↔ (y <= x)%Q.
Proof.
  unfold Qltb. rewrite negb_false_iff. apply Qle_bool_iff.
Qed.


Section SortFacts.
Context {A : Type} (key : A → Q).

Abbreviation ascending := (StronglySorted (λ x y : A, (key x <= key y)%Q)).
Abbreviation descending := (StronglySorted (λ x y : A, (key y <= key x)%Q)).
Abbreviation scored v := (λ x : A, Qeq_bool (key x) v).

Lemma insert_sorted_perm (x : A) (l : list A) : insert_sorted key x l ≡ₚ x :: l.
Proof.
  induction l as [| y l IH]; [done |]. cbn.
  destruct (Qltb (key y) (key x)); [| done].
  rewrite IH. apply Permutation_swap.
Qed.

Lemma insert_sorted_ascending (x : A) (l : list A) :
  ascending l → ascending (insert_sorted key x l).
Proof.
  induction 1 as [| y l Hl IH Hy]; cbn.
  - repeat constructor.
  - destruct (Qltb (key y) (key x)) eqn:Hlt.
    + constructor; [done |].
      rewrite Forall_forall. intros z Hz.
      rewrite insert_sorted_perm in Hz. apply elem_of_cons in Hz as [-> | Hz].
      * apply Qltb_lt in Hlt. by apply Qlt_le_weak.
      * rewrite Forall_forall in Hy. by apply Hy.
    + apply Qltb_ge in Hlt.
      apply SSorted_cons; [by apply SSorted_cons |].
      apply Forall_cons_2; [exact Hlt |].
      eapply Forall_impl; [exact Hy |]. intros z Hz. cbn in Hz.
      by eapply Qle_trans.
Qed.

Lemma insert_sorted_stable (v : Q) (x : A) (l : list A) :
  filter (scored v) (insert_sorted key x l) = filter (scored v) (x :: l).
Proof.
  induction l as [| y l IH]; [done |]. cbn [insert_sorted].
  destruct (Qltb (key y) (key x)) eqn:Hlt; [| done].
  rewrite (filter_cons _ y), IH, !(filter_cons _ x), (filter_cons _ y).
  repeat case_decide; try done.
  exfalso. apply Qltb_lt in Hlt.
  match goal with
  | Hx : Is_true (Qeq_bool (key x) v), Hy : Is_true (Qeq_bool (key y) v) |- _ =>
      apply Is_true_eq_true, Qeq_bool_iff in Hx;
      apply Is_true_eq_true, Qeq_bool_iff in Hy;
      rewrite Hx, Hy in Hlt; by apply Qlt_irrefl in Hlt
  end.
Qed.

Lemma sort_ascending_perm (l : list A) : sort_ascending key l ≡ₚ l.
Proof.
  induction l as [| x l IH]; [done |]. cbn.
  by rewrite insert_sorted_perm, IH.
Qed.

Lemma sort_ascending_ascending (l : list A) : ascending (sort_ascending key l).
Proof.
  induction l as [| x l IH]; [constructor |]. cbn.
  by apply insert_sorted_ascending.
Qed.

Lemma sort_ascending_stable (v : Q) (l : list A) :
  filter (scored v) (sort_ascending key l) = filter (scored v) l.
Proof.
  induction l as [| x l IH]; [done |]. cbn [sort_ascending foldr].
  rewrite insert_sorted_stable, !(filter_cons _ x).
  fold (sort_ascending key l). by rewrite IH.
Qed.

Lemma ascending_reverse (l : list A) : ascending l → descending (reverse l).
Proof.
  induction 1 as [| x l Hl IH Hx]; [constructor |].
  rewrite reverse_cons. apply StronglySorted_app. split; [| split].
  - intros y z Hy ->%list_elem_of_singleton. rewrite elem_of_reverse in Hy.
    rewrite Forall_forall in Hx. by apply Hx.
  - exact IH.
  - repeat constructor.
Qed.

(** A sort with [reverse=True] permutes the list, leaves it in descending
    order of the keys and keeps elements with equal keys in their order. *)
Lemma list_sort_reverse_spec (l : list A) :
  list_sort key true l ≡ₚ l
  ∧ descending (list_sort key true l)
  ∧ ∀ v, filter (scored v) (list_sort key true l) = filter (scored v) l.
Proof.
  unfold list_sort. split; [| split].
  - by rewrite reverse_Permutation, sort_ascending_perm, reverse_Permutation.
  - apply ascending_reverse, sort_ascending_ascending.
  - intros v. by rewrite filter_reverse, sort_ascending_stable, filter_reverse,
      reverse_involutive.
Qed.

End SortFacts.

(** ** The effectiveness score *)

(** C1: the effectiveness score of a decoy is half its similarity to the
    target plus half the probability [p] of being real; [p] is the
    classifier's prediction for the decoy when both the model and the
    vectorizer are loaded, and the neutral 0.5 when either is missing. *)
Theorem evaluate_decoy_formula (st : globals) (decoy target : str) :
  (∀ m v, model st = Some m → vectorizer st = Some v →
     evaluate_decoy st decoy target
     = ((1 # 2) * calculate_similarity decoy target
        + (1 # 2) * (class_proba m (features v decoy)).2)%Q)
  ∧ (model st = None ∨ vectorizer st = None →
       evaluate_decoy st decoy target
       = ((1 # 2) * calculate_similarity decoy target + (1 # 2) * (1 # 2))%Q).
Proof.
  assert (∀ x y : Q, (x * (1 # 2) + y * (1 # 2) = (1 # 2) * x + (1 # 2) * y)%Q)
    as Hcomm.
  { intros [xn xd] [yn yd]. unfold Qplus, Qmult, Qnum, Qden.
    rewrite (Pos.mul_comm xd 2), (Pos.mul_comm yd 2). f_equal. ring. }
  unfold evaluate_decoy. split.
  - intros m v -> ->. apply Hcomm.
  - intros [-> | Hv]; [apply Hcomm |].
    rewrite Hv. destruct (model st); apply Hcomm.
Qed.

(** ** The operations *)

Section OperationClaims.
Context `{UCD}.

Lemma complexity_default (c : Z) :
  ¬ (1 ≤ c ≤ 10)%Z →
  (if negb ((1 <=? c) && (c <=? 10))%Z then 5%Z else c) = 5%Z.
Proof.
  intros Hc. destruct (Z.leb_spec 1 c), (Z.leb_spec c 10); cbn; lia.
Qed.

Lemma count_default (n : Z) :
  ¬ (1 ≤ n ≤ 100)%Z →
  (if negb ((1 <=? n) && (n <=? 100))%Z then 10%Z else n) = 10%Z.
Proof.
  intros Hn. destruct (Z.leb_spec 1 n), (Z.leb_spec n 100); cbn; lia.
Qed.

(** C5: a complexity outside 1..10 is replaced by 5 and a count outside
    1..100 by 10 before anything else is done with them, so the request
    behaves exactly as one that carries the default: same response, same
    rows written, for the same model state, clock, database and random
    draws.  Such a request with a non-empty target is never answered with a
    client error. *)
Theorem generate_out_of_range_defaults (st : globals) (env : environment)
    (target : option str) (complexity count : option Z) (c n : Z) (g : rng) :
  ¬ (1 ≤ c ≤ 10)%Z → ¬ (1 ≤ n ≤ 100)%Z →
  generate_decoys st env
    (Some {| g_target := target; g_complexity := Some c; g_count := count |}) g
  = generate_decoys st env
      (Some {| g_target := target; g_complexity := Some 5%Z; g_count := count |}) g
  ∧ generate_decoys st env
      (Some {| g_target := target; g_complexity := complexity; g_count := Some n |}) g
    = generate_decoys st env
        (Some {| g_target := target; g_complexity := complexity;
                 g_count := Some 10%Z |}) g
  ∧ (∀ t error, target = Some t → t ≠ [] →
       (generate_decoys st env
          (Some {| g_target := target; g_complexity := Some c;
                   g_count := Some n |}) g).1 ≠ Resp400 error).
Proof.
  intros Hc Hn. split; [| split].
  - unfold generate_decoys. cbn [g_target g_complexity g_count default].
    rewrite !bool_decide_eq_false_2 by (by intros (_ & ? & _)).
    destruct target as [[| x target] |]; try reflexivity.
    by rewrite complexity_default.
  - unfold generate_decoys. cbn [g_target g_complexity g_count default].
    rewrite !bool_decide_eq_false_2 by (by intros (_ & _ & ?)).
    destruct target as [[| x target] |]; try reflexivity.
    by rewrite count_default.
  - intros t error -> Ht. unfold generate_decoys.
    cbn [g_target g_complexity g_count default].
    rewrite bool_decide_eq_false_2 by (by intros (? & _)).
    destruct t as [| x t]; [done |].
    destruct (generate_loop _ _ _ _ _) as [[[decoys scores] g'] | e]; done.
Qed.



End OperationClaims.

(** C9: an evaluate request without a target or with a missing or empty list
    of decoys is answered with a client error.  The error is fixed by the
    request alone, whatever the model state: no decoy is scored and the
    response carries neither evaluations nor metrics. *)
Theorem evaluate_rejects_invalid_requests (data : option evaluate_request) :
  invalid_evaluate_request data →
  ∃ error, ∀ st, evaluate_decoys_endpoint st data = Resp400 error.
Proof.
  destruct data as [[target decoys] |]; cbn [invalid_evaluate_request].
  - cbn [e_target e_decoys]. intros Hbad.
    unfold evaluate_decoys_endpoint. cbn [e_target e_decoys].
    destruct (bool_decide _); [by eexists |].
    exists "Target and decoys are required"%string. intros st.
    destruct target as [[| x target] |], decoys as [[| d decoys] |];
      try reflexivity.
    destruct Hbad as [? | [? | [? | ?]]]; discriminate.
  - intros _. by eexists.
Qed.


(** ** Concrete runs *)

(** C7 fails on the code: with target kyber768 and complexity 3 one position
    is rewritten; when numpy picks position 0 (the letter k, which has no
    homoglyph) and then draws the letter k again, the decoy is the target
    itself and differs from it in no position. *)
Theorem kyber768_decoy_may_equal_target :
  generate_decoy (pystr "kyber768") 3 [0; 10]%Z = Ok (pystr "kyber768", [])
  ∧ differing_positions (pystr "kyber768") (pystr "kyber768") = 0.
Proof. split; vm_compute; reflexivity. Qed.

(** C4 fails on the code: for the target ntru the first rewrite rule matches
    nothing, the fallback substitutes one character, and when that is the
    letter n redrawn as n the structural variation returns ntru itself. *)
Theorem structural_variation_may_return_target :
  structural_variation_decoy (pystr "ntru") (3 # 5) [0; 0; 13]%Z
  = Ok (pystr "ntru", [])
  ∧ generate_decoy (pystr "ntru") 8 [0; 0; 13]%Z = Ok (pystr "ntru", []).
Proof. split; vm_compute; reflexivity. Qed.


(** C8 as stated fails: on the empty string [character_substitution_decoy]
    raises, and the one-letter string k can come back unchanged. *)
Lemma character_substitution_raises_on_empty :
  character_substitution_decoy (pystr "") (7 # 10) [] = Raise ValueError
  ∧ character_substitution_decoy (pystr "k") (7 # 10) [0; 10]%Z
    = Ok (pystr "k", []).
Proof. split; vm_compute; reflexivity. Qed.


(** *** Instances of the conditional statements *)

Lemma character_substitution_preserves_length_witness :
  pystr "kyber768" ≠ []
  ∧ ∃ r g',
      character_substitution_decoy (pystr "kyber768") (17 # 20) [5; 3]%Z
      = Ok (r, g')
      ∧ length r = length (pystr "kyber768").
Proof.
  split; [done |].
  by apply (character_substitution_preserves_length (pystr "kyber768")).
Defined.


Lemma generate_decoy_strategy_witness :
  pystr "kyber768" ≠ [] ∧ (1 ≤ 5 ≤ 10)%Z
  ∧ generate_decoy (pystr "kyber768") 5 [0; 5; 3]%Z
    = character_substitution_decoy (pystr "kyber768") (1 - inject_Z 5 / 20)
        [5; 3]%Z.
Proof.
  split; [done |]. split; [lia |].
  destruct (generate_decoy_strategy (pystr "kyber768") 5 [0; 5; 3]%Z
              ltac:(done) ltac:(lia)) as (_ & Hmid & _).
  destruct (Hmid ltac:(lia)) as (_ & Hlow & _). by apply Hlow.
Defined.

Lemma generate_out_of_range_defaults_witness :
  ¬ (1 ≤ 999 ≤ 10)%Z ∧ ¬ (1 ≤ -1 ≤ 100)%Z
  ∧ generate_decoys no_model {| elapsed_ms := 3; db_connected := true |}
      (Some {| g_target := Some (pystr "kyber768");
               g_complexity := Some 999%Z; g_count := Some 2%Z |}) [0; 5; 3]%Z
    = generate_decoys no_model {| elapsed_ms := 3; db_connected := true |}
        (Some {| g_target := Some (pystr "kyber768");
                 g_complexity := Some 5%Z; g_count := Some 2%Z |}) [0; 5; 3]%Z.
Proof.
  split; [lia |]. split; [lia |].
  apply (generate_out_of_range_defaults no_model _ _ None (Some 2%Z) 999 (-1));
    lia.
Defined.

Lemma evaluate_rejects_invalid_requests_witness :
  invalid_evaluate_request
    (Some {| e_target := Some (pystr "kyber768"); e_decoys := Some [] |})
  ∧ ∃ error, ∀ st,
      evaluate_decoys_endpoint st
        (Some {| e_target := Some (pystr "kyber768"); e_decoys := Some [] |})
      = Resp400 error.
Proof.
  assert (invalid_evaluate_request
            (Some {| e_target := Some (pystr "kyber768");
                     e_decoys := Some [] |})) as Hbad
    by (cbn; auto).
  split; [exact Hbad |].
  exact (evaluate_rejects_invalid_requests _ Hbad).
Defined.



Lemma structural_variation_bad_template_witness :
  (hd 0 [7] mod 8 = 7)%Z
  ∧ structural_variation_decoy (pystr "kyber768") (3 # 5) [7]%Z
    = Raise re_error.
Proof.
  split; [reflexivity |].
  by apply (structural_variation_bad_template (pystr "kyber768")).
Defined.


(** * Further properties of the code *)

(** ** The module [random] *)






(** ** The second definitions of [ai/app.py] *)





(** On the empty target the prototype generator raises as soon as one decoy
    is asked for: it wants to change one character and asks
    [random.randint(0, -1)] for its position.  The second handler of
    [POST /generate] does not guard against it and fails with it. *)
Theorem second_generate_decoys_empty_target (complexity count : Z)
    (now : string) (g : rng) :
  (1 ≤ count)%Z →
  Second.generate_decoys [] complexity count g = Raise ValueError
  ∧ Second.generate now
      {| g_target := Some []; g_complexity := Some complexity;
         g_count := Some count |} g = Resp500 ValueError.
Proof.
  intros Hcount.
  assert (Second.generate_decoys [] complexity count g = Raise ValueError)
    as Hraise.
  { unfold Second.generate_decoys.
    destruct (Z.to_nat count) as [| n] eqn:Hn; [lia |].
    cbn [Second.generate_decoys_loop]. unfold bind at 1.
    unfold Second.decoy_text.
    assert (py_int (inject_Z (Z.of_nat (length (@nil Z)))
                    * (inject_Z complexity / 10) * (1 # 2))%Q = 0%Z) as Hzero.
    { destruct (inject_Z complexity / 10)%Q as [p q]. reflexivity. }
    change (startswith [] (pystr "kyber")) with false.
    change (startswith [] (pystr "saber")) with false.
    change (startswith [] (pystr "ntru")) with false.
    change (startswith [] (pystr "dilithium")) with false.
    cbv iota. rewrite Hzero. reflexivity. }
  split; [done |]. unfold Second.generate.
  cbn [g_target g_complexity g_count default from_option id].
  by rewrite Hraise.
Qed.



(** ** [ai/simple_app.py] *)

Abbreviation agreeing a b :=
  (length (filter (λ ab : Z * Z, ab.1 = ab.2) (zip a b))) (only parsing).

Lemma agreeing_comm (a : str) : ∀ b : str, agreeing a b = agreeing b a.
Proof.
  induction a as [| x a IH]; intros [| y b]; try done. cbn [zip zip_with].
  rewrite !filter_cons. cbn [fst snd].
  destruct (decide (x = y)) as [-> | Hne].
  - rewrite decide_True by done. cbn. by rewrite IH.
  - rewrite decide_False by congruence. apply IH.
Qed.

Lemma agreeing_le (a : str) : ∀ b : str,
  agreeing a b ≤ length a `min` length b.
Proof.
  induction a as [| x a IH]; intros [| y b]; cbn [zip zip_with length]; try (cbn; lia).
  rewrite filter_cons. specialize (IH b). case_decide; cbn [length]; lia.
Qed.

Lemma agreeing_refl (a : str) : agreeing a a = length a.
Proof.
  induction a as [| x a IH]; [done |]. cbn [zip zip_with].
  rewrite filter_cons_True by done. cbn. by rewrite IH.
Qed.

Lemma agreeing_full (a : str) : ∀ b : str,
  agreeing a b = length a `max` length b → a = b.
Proof.
  induction a as [| x a IH]; intros [| y b]; cbn [zip zip_with length];
    try done; try (cbn; lia).
  rewrite filter_cons. pose proof (agreeing_le a b). cbn [fst snd].
  case_decide; cbn [length]; [| lia].
  intros Heq. subst y. f_equal. apply IH. lia.
Qed.

Lemma Qdiv_Z_bounds (c t : Z) :
  (0 ≤ c ≤ t)%Z → (0 < t)%Z →
  (0 <= inject_Z c / inject_Z t)%Q ∧ (inject_Z c / inject_Z t <= 1)%Q.
Proof.
  intros Hc Ht. destruct t as [| t | t]; try lia.
  unfold Qdiv, Qinv, Qmult, Qle, inject_Z. cbn [Qnum Qden].
  rewrite !Z.mul_1_r, !Pos.mul_1_l. lia.
Qed.

Lemma Qdiv_Z_one (c t : Z) :
  (0 < t)%Z → (inject_Z c / inject_Z t == 1)%Q ↔ c = t.
Proof.
  intros Ht. destruct t as [| t | t]; try lia.
  unfold Qdiv, Qinv, Qmult, Qeq, inject_Z. cbn [Qnum Qden].
  rewrite !Z.mul_1_r, !Pos.mul_1_l. lia.
Qed.

Lemma Qdiv_nat_bounds (c t : nat) :
  c ≤ t → 0 < t →
  (0 <= inject_Z (Z.of_nat c) / inject_Z (Z.of_nat t))%Q
  ∧ (inject_Z (Z.of_nat c) / inject_Z (Z.of_nat t) <= 1)%Q.
Proof. intros Hc Ht. apply Qdiv_Z_bounds; lia. Qed.

Lemma Qdiv_nat_one (c t : nat) :
  0 < t →
  (inject_Z (Z.of_nat c) / inject_Z (Z.of_nat t) == 1)%Q ↔ c = t.
Proof.
  intros Ht. rewrite Qdiv_Z_one by lia. lia.
Qed.

Lemma simple_similarity_nonempty (a b : str) :
  a ≠ [] → b ≠ [] →
  SimpleApp.calculate_similarity a b
  = (inject_Z (Z.of_nat (agreeing a b))
     / inject_Z (Z.of_nat (length a `max` length b)))%Q
  ∧ 0 < length a `max` length b.
Proof. destruct a, b; try done. intros _ _. split; [done | cbn; lia]. Qed.

Lemma simple_similarity_bounds (a b : str) :
  (0 <= SimpleApp.calculate_similarity a b)%Q
  ∧ (SimpleApp.calculate_similarity a b <= 1)%Q.
Proof.
  destruct (decide (a = [])) as [-> | Ha]; [by destruct b |].
  destruct (decide (b = [])) as [-> | Hb]; [by destruct a |].
  destruct (simple_similarity_nonempty a b Ha Hb) as [-> Ht].
  pose proof (agreeing_le a b). apply Qdiv_nat_bounds; lia.
Qed.

Lemma simple_similarity_comm (a b : str) :
  SimpleApp.calculate_similarity a b = SimpleApp.calculate_similarity b a.
Proof.
  destruct (decide (a = [])) as [-> | Ha]; [by destruct b |].
  destruct (decide (b = [])) as [-> | Hb]; [by destruct a |].
  destruct (simple_similarity_nonempty a b Ha Hb) as [-> _].
  destruct (simple_similarity_nonempty b a Hb Ha) as [-> _].
  by rewrite agreeing_comm, Nat.max_comm.
Qed.

Lemma simple_similarity_refl (a : str) :
  a ≠ [] → (SimpleApp.calculate_similarity a a == 1)%Q.
Proof.
  intros Ha. destruct (simple_similarity_nonempty a a Ha Ha) as [-> Ht].
  apply Qdiv_nat_one; [done |]. rewrite agreeing_refl. lia.
Qed.

Lemma simple_similarity_one (a b : str) :
  (SimpleApp.calculate_similarity a b == 1)%Q → a = b.
Proof.
  destruct (decide (a = [])) as [-> | Ha]; [by destruct b |].
  destruct (decide (b = [])) as [-> | Hb]; [by destruct a |].
  destruct (simple_similarity_nonempty a b Ha Hb) as [-> Ht].
  intros Heq%Qdiv_nat_one; [| done]. by apply agreeing_full.
Qed.

(** The positional similarity of [simple_app.py] lies between 0 and 1, does
    not depend on the order of its arguments, is 0 as soon as one string is
    empty, is 1 for a non-empty string and itself, and is 1 only for equal
    strings. *)
Theorem simple_similarity_properties (original decoy : str) :
  (0 <= SimpleApp.calculate_similarity original decoy)%Q
  ∧ (SimpleApp.calculate_similarity original decoy <= 1)%Q
  ∧ SimpleApp.calculate_similarity original decoy
    = SimpleApp.calculate_similarity decoy original
  ∧ SimpleApp.calculate_similarity original [] = 0%Q
  ∧ SimpleApp.calculate_similarity [] decoy = 0%Q
  ∧ (original ≠ [] →
       (SimpleApp.calculate_similarity original original == 1)%Q)
  ∧ ((SimpleApp.calculate_similarity original decoy == 1)%Q →
       original = decoy).
Proof.
  split; [apply simple_similarity_bounds |].
  split; [apply simple_similarity_bounds |].
  split; [apply simple_similarity_comm |].
  split; [by destruct original |]. split; [done |].
  split; [apply simple_similarity_refl | apply simple_similarity_one].
Qed.









Lemma Qsum_bounds (lo hi : Q) (l : list Q) :
  Forall (λ x, (lo <= x)%Q ∧ (x <= hi)%Q) l →
  (lo * inject_Z (Z.of_nat (length l)) <= Qsum l)%Q
  ∧ (Qsum l <= hi * inject_Z (Z.of_nat (length l)))%Q.
Proof.
  induction 1 as [| x l [Hlo Hhi] Hl [IHlo IHhi]]; cbn [Qsum foldr length].
  - change (inject_Z (Z.of_nat 0)) with 0%Q. split; lra.
  - fold (Qsum l). rewrite Nat2Z.inj_succ, <- Z.add_1_r, inject_Z_plus.
    change (inject_Z 1) with 1%Q. split; lra.
Qed.

Lemma Qmean_bounds (lo hi : Q) (l : list Q) :
  l ≠ [] → Forall (λ x, (lo <= x)%Q ∧ (x <= hi)%Q) l →
  (lo <= Qsum l / inject_Z (Z.of_nat (length l)))%Q
  ∧ (Qsum l / inject_Z (Z.of_nat (length l)) <= hi)%Q.
Proof.
  intros Hne Hall. destruct (Qsum_bounds lo hi l Hall) as [Hlo Hhi].
  assert (0 < inject_Z (Z.of_nat (length l)))%Q as Hn.
  { destruct l; [done |]. unfold Qlt, inject_Z. cbn. lia. }
  split; [by apply Qle_shift_div_l | by apply Qle_shift_div_r].
Qed.



(** ** The model lifecycle *)

Section LifecycleFacts.
Context `{UCD}.
Variable fit_vectorizer : list str → Vectorizer.
Variable fit_model : list (list Z) → list Z → M Model.

Lemma three_fakes_spec (real : str) (n : nat) : ∀ g,
  real ≠ [] →
  ∃ fakes g', three_fakes real n g = Ok (fakes, g')
    ∧ length fakes = n
    ∧ Forall (λ fake, length fake = length real) fakes.
Proof.
  induction n as [| n IH]; intros g Hne.
  - exists [], g. by repeat split.
  - destruct (character_substitution_decoy_spec real (7 # 10) g Hne)
      as (_ & _ & fake & g1 & _ & Hfake & _ & _ & _ & Hlen & _).
    destruct (IH g1 Hne) as (rest & g' & Hrest & Hn & Hall).
    exists (fake :: rest), g'. cbn [three_fakes]. unfold bind, ret.
    rewrite Hfake, Hrest. split; [done |]. split; [cbn; lia |].
    by apply Forall_cons.
Qed.

Lemma make_sample_fake_spec (reals : list str) : ∀ g,
  Forall (λ real, real ≠ []) reals →
  ∃ fakes g', make_sample_fake reals g = Ok (fakes, g')
    ∧ length fakes = 3 * length reals
    ∧ ∀ j fake, fakes !! j = Some fake →
        ∃ real, reals !! (j / 3) = Some real ∧ length fake = length real.
Proof.
  induction reals as [| real reals IH]; intros g Hne.
  - exists [], g. split; [done |]. split; [done |]. by intros j fake ?.
  - apply Forall_cons in Hne as [Hreal Hne].
    destruct (three_fakes_spec real 3 g Hreal) as (f3 & g1 & Hf3 & Hn3 & Hall3).
    destruct (IH g1 Hne) as (rest & g' & Hrest & Hn & Hall).
    exists (f3 ++ rest), g'. cbn [make_sample_fake]. unfold bind, ret.
    rewrite Hf3, Hrest. split; [done |].
    split; [rewrite length_app; cbn [length]; lia |].
    intros j fake Hj. destruct (decide (j < 3)) as [Hlt | Hge].
    + rewrite lookup_app_l in Hj by lia.
      exists real. rewrite Nat.div_small by done. split; [done |].
      rewrite Forall_forall in Hall3. apply Hall3.
      by eapply list_elem_of_lookup_2.
    + rewrite lookup_app_r in Hj by lia. rewrite Hn3 in Hj.
      destruct (Hall _ _ Hj) as (r & Hr & Hlen). exists r. split; [| done].
      replace j with (1 * 3 + (j - 3)) by lia.
      rewrite Nat.div_add_l by done. cbn [lookup list_lookup Nat.add].
      by replace (1 * 3 + (j - 3) - 3) with (j - 3) in Hr by lia.
Qed.

Lemma sample_real_nonempty : Forall (λ real : str, real ≠ []) sample_real.
Proof. unfold sample_real. cbn [map]. by repeat constructor. Qed.

(** [load_or_create_model] and its files.  If the forest can be fitted, the
    call returns with a model and a vectorizer set and with both stored; a
    stored pair is loaded as it is, without a draw and without a write, so a
    second call gives back the pair the first one left. *)
Theorem load_or_create_model_lifecycle (fs : storage) (g : rng) :
  (∀ X y h, ∃ m h', fit_model X y h = Ok (m, h')) →
  ∃ st fs' g',
    load_or_create_model fit_vectorizer fit_model fs g = Ok ((st, fs'), g')
    ∧ is_Some (model st) ∧ is_Some (vectorizer st)
    ∧ model_file fs' = model st ∧ vectorizer_file fs' = vectorizer st
    ∧ (is_Some (model_file fs) → is_Some (vectorizer_file fs) →
         fs' = fs ∧ g' = g)
    ∧ ∀ h, load_or_create_model fit_vectorizer fit_model fs' h
           = Ok ((st, fs'), h).
Proof.
  intros Hfit. unfold load_or_create_model at 1.
  destruct (model_file fs) as [m |] eqn:Hm;
    [destruct (vectorizer_file fs) as [v |] eqn:Hv |].
  - exists {| model := Some m; vectorizer := Some v |}, fs, g.
    split; [done |]. cbn. split; [done |]. split; [done |].
    split; [done |]. split; [done |]. split; [done |].
    intros h. unfold load_or_create_model. by rewrite Hm, Hv.
  - destruct (make_sample_fake_spec sample_real g sample_real_nonempty)
      as (fakes & g1 & Hfakes & _).
    unfold bind, ret. rewrite Hfakes.
    match goal with
    | |- context [fit_model ?X ?y g1] =>
        destruct (Hfit X y g1) as (m' & g' & Hm')
    end.
    rewrite Hm'. eexists _, _, g'. split; [reflexivity |]. cbn.
    split; [done |]. split; [done |]. split; [done |]. split; [done |].
    split; [by intros _ [? [=]] |]. done.
  - destruct (make_sample_fake_spec sample_real g sample_real_nonempty)
      as (fakes & g1 & Hfakes & _).
    unfold bind, ret. rewrite Hfakes.
    match goal with
    | |- context [fit_model ?X ?y g1] =>
        destruct (Hfit X y g1) as (m' & g' & Hm')
    end.
    rewrite Hm'. eexists _, _, g'. split; [reflexivity |]. cbn.
    split; [done |]. split; [done |]. split; [done |]. split; [done |].
    split; [by intros [? [=]] |]. done.
Qed.

(** When no stored pair is found, the forest is fitted on 72 samples: the 18
    real names with label 1, then three decoys of each name in turn with
    label 0, every decoy of the length of its name.  Making the decoys never
    fails. *)
Theorem training_set_shape (fs : storage) (g : rng) :
  model_file fs = None ∨ vectorizer_file fs = None →
  ∃ fakes g1,
    make_sample_fake sample_real g = Ok (fakes, g1)
    ∧ length sample_real = 18 ∧ length fakes = 54
    ∧ (∀ j fake, fakes !! j = Some fake →
         ∃ real, sample_real !! (j / 3) = Some real
                 ∧ length fake = length real)
    ∧ load_or_create_model fit_vectorizer fit_model fs g
      = (let v := fit_vectorizer (sample_real ++ fakes) in
         do m <- fit_model (transform v (sample_real ++ fakes))
                   (replicate 18 1%Z ++ replicate 54 0%Z);
         ret ({| model := Some m; vectorizer := Some v |},
              {| model_file := Some m; vectorizer_file := Some v |})) g1.
Proof.
  intros Hmissing.
  destruct (make_sample_fake_spec sample_real g sample_real_nonempty)
    as (fakes & g1 & Hfakes & Hlen & Hall).
  exists fakes, g1. split; [done |]. split; [done |]. split; [done |].
  split; [done |]. unfold load_or_create_model.
  change (length sample_real) with 18 in *.
  destruct (model_file fs), (vectorizer_file fs);
    try (by destruct Hmissing); unfold bind at 1; rewrite Hfakes;
    by replace (length fakes) with 54 by lia.
Qed.

(** [before_request] leaves a state with a model set, and does nothing at
    all (no training, no draw, no write) once a model is set; called again on
    what it left, it changes nothing.  From the state with no model it also
    sets the vectorizer. *)
Theorem before_request_ready (st : globals) (fs : storage) (g : rng) :
  (∀ X y h, ∃ m h', fit_model X y h = Ok (m, h')) →
  ∃ st' fs' g',
    before_request fit_vectorizer fit_model st fs g = Ok ((st', fs'), g')
    ∧ is_Some (model st')
    ∧ (model st = None → is_Some (vectorizer st'))
    ∧ (is_Some (model st) → st' = st ∧ fs' = fs ∧ g' = g)
    ∧ ∀ h, before_request fit_vectorizer fit_model st' fs' h
           = Ok ((st', fs'), h).
Proof.
  intros Hfit. unfold before_request at 1.
  destruct (model st) as [m |] eqn:Hm.
  - exists st, fs, g. split; [done |]. split; [by rewrite Hm |].
    split; [done |]. split; [done |].
    intros h. unfold before_request. by rewrite Hm.
  - assert (∃ st' fs' g',
              load_or_create_model fit_vectorizer fit_model fs g
              = Ok ((st', fs'), g')
              ∧ is_Some (model st') ∧ is_Some (vectorizer st'))
      as (st' & fs' & g' & Hrun & Hmodel & Hvec).
    { unfold load_or_create_model.
      destruct (model_file fs) as [m |];
        [destruct (vectorizer_file fs) as [v |] |];
        try (by eexists _, _, _);
        destruct (make_sample_fake_spec sample_real g sample_real_nonempty)
          as (fakes & g1 & Hfakes & _);
        unfold bind, ret; rewrite Hfakes;
        match goal with
        | |- context [fit_model ?X ?y g1] =>
            destruct (Hfit X y g1) as (m' & g' & ->)
        end; by eexists _, _, _. }
    exists st', fs', g'. split; [done |]. split; [done |].
    split; [done |]. split; [by intros [? [=]] |].
    intros h. unfold before_request. by destruct Hmodel as [m' ->].
Qed.

End LifecycleFacts.

(** ** More on the generator of [ai/app.py] *)

Section GeneratorMore.
Context `{UCD}.

(** A generate request without a body, without a target or with an empty
    target is answered with a client error fixed by the request alone: nothing
    is generated or drawn and no row is written. *)
Theorem generate_rejects_missing_target (data : option generate_request) :
  invalid_generate_request data →
  ∃ error, ∀ st env g, generate_decoys st env data g = (Resp400 error, []).
Proof.
  destruct data as [[target complexity count] |];
    cbn [invalid_generate_request g_target]; [| by eexists].
  intros Hbad. unfold generate_decoys. cbn [g_target g_complexity g_count].
  destruct (bool_decide _); [by eexists |].
  exists "Target string is required"%string. intros st env g.
  destruct Hbad as [-> | ->]; reflexivity.
Qed.

Lemma run_length_le (c : charclass) (s : str) : run_length c s ≤ length s.
Proof.
  induction s as [| x s IH]; [done |]. cbn.
  destruct (in_class c x); cbn; lia.
Qed.

(** A match consumes exactly the text of its groups, one group per class of
    the pattern, none of them empty. *)
Lemma match_here_spec (r : regex) : ∀ (s : str) (groups : list str) (rest : str),
  match_here r s = Some (groups, rest) →
  concat groups ++ rest = s
  ∧ length groups = length r
  ∧ Forall (λ group, group ≠ []) groups.
Proof.
  induction r as [| c r IH]; intros s groups rest.
  - cbn. intros [= <- <-]. by repeat split.
  - cbn [match_here].
    pose proof (run_length_le c s) as Hrun. revert Hrun.
    generalize (run_length c s) as n.
    induction n as [| n IHn]; [done |]. intros Hn.
    destruct (match_here r (drop (S n) s)) as [[groups' rest'] |] eqn:Hm.
    + intros [= <- <-]. destruct (IH _ _ _ Hm) as (Hcat & Hlen & Hne).
      split; [| split].
      * cbn [concat]. rewrite <- app_assoc, Hcat. apply take_drop.
      * cbn. by rewrite Hlen.
      * apply Forall_cons. split; [| done].
        intros Hnil. apply (f_equal length) in Hnil.
        rewrite length_take in Hnil. cbn [length] in Hnil. lia.
    + intros Hback. apply IHn; [lia | done].
Qed.

Lemma sub_scan_length (r : regex) (template : list titem) :
  r ≠ [] → lengthens (length r) template →
  ∀ (s : str) (skip : nat),
    sub_scan r template skip s = drop skip s
    ∨ length s < length (sub_scan r template skip s) + skip.
Proof.
  intros Hr Hgrow. induction s as [| x s IH]; intros skip.
  - left. by destruct skip.
  - destruct skip as [| k]; cbn [sub_scan].
    + destruct (match_here r (x :: s)) as [[groups rest] |] eqn:Hm.
      * right. destruct (match_here_spec _ _ _ _ Hm) as (Hcat & Hlen & Hne).
        specialize (Hgrow groups Hlen).
        assert (1 ≤ length (concat groups)) as Hpos.
        { destruct groups as [| [| y group] groups]; cbn in *.
          - by destruct r.
          - by apply Forall_cons in Hne as [? _].
          - lia. }
        apply (f_equal length) in Hcat. rewrite length_app in Hcat.
        cbn [length] in *. rewrite length_app.
        destruct (IH (S (length s) - length rest - 1)) as [-> | Hlong].
        -- rewrite length_drop. lia.
        -- lia.
      * destruct (IH 0) as [Heq | Hlong].
        -- left. rewrite Heq. by rewrite !drop_0.
        -- right. cbn [length]. lia.
    + destruct (IH k) as [Heq | Hlong].
      * left. by rewrite Heq.
      * right. cbn [length]. lia.
Qed.

(** Every entry of the pattern table but the last compiles to a template
    that lengthens its matches. *)
Lemma patterns_lengthen (idx : Z) (entry : regex * str) :
  getitem patterns idx = Ok entry → (0 ≤ idx < 7)%Z →
  ∃ template,
    parse_template (length entry.1) 0 entry.2 = Ok template
    ∧ entry.1 ≠ []
    ∧ lengthens (length entry.1) template.
Proof.
  intros Hget Hidx.
  assert (idx = 0 ∨ idx = 1 ∨ idx = 2 ∨ idx = 3 ∨ idx = 4 ∨ idx = 5 ∨ idx = 6)%Z
    as Hcases by lia.
  destruct Hcases as [-> | [-> | [-> | [-> | [-> | [-> | ->]]]]]];
    cbv in Hget; injection Hget as <-;
    (eexists; split; [vm_compute; reflexivity |]); (split; [done |]);
    intros [| g1 [| g2 [| g3 groups]]]; try done; intros _;
    cbn [expand concat lookup list_lookup Nat.sub default from_option id];
    rewrite ?app_nil_r, ?length_app; cbn [length]; rewrite ?length_app;
    cbn [length]; lia.
Qed.

Lemma structural_variation_outcomes (target : str) (similarity : Q)
    (g : rng) :
  target ≠ [] →
  ((hd 0%Z g mod 8 = 7)%Z
   ∧ structural_variation_decoy target similarity g = Raise re_error)
  ∨ ((hd 0%Z g mod 8 ≠ 7)%Z
     ∧ ∃ r g', structural_variation_decoy target similarity g = Ok (r, g')
         ∧ (length target < length r
            ∨ (length r = length target
               ∧ character_substitution_decoy target similarity (tail g)
                 = Ok (r, g')))).
Proof.
  intros Hne. unfold structural_variation_decoy, bind.
  rewrite randint_ok by (cbn; lia).
  change (Z.of_nat (length patterns) - 0)%Z with 8%Z. rewrite Z.add_0_l.
  pose proof (Z.mod_pos_bound (hd 0%Z g) 8 ltac:(lia)) as Hidx.
  destruct (decide (hd 0%Z g mod 8 = 7)%Z) as [Heq | Hneq].
  { left. split; [done |]. rewrite Heq. reflexivity. }
  right. split; [done |].
  destruct (getitem_ok patterns (hd 0%Z g mod 8)) as (entry & Hget & _);
    [cbn; lia |].
  destruct (patterns_lengthen _ entry Hget ltac:(lia))
    as (template & Hparse & Hr & Hgrow).
  unfold lift. rewrite Hget. unfold re_sub. rewrite Hparse.
  destruct (sub_scan_length entry.1 template Hr Hgrow target 0) as [Hsame | Hlong].
  - rewrite drop_0 in Hsame. rewrite Hsame, decide_True by done.
    destruct (character_substitution_decoy_spec target similarity (tail g) Hne)
      as (_ & _ & r & g2 & _ & Hrun & _ & _ & _ & Hlen & _).
    exists r, g2. split; [done |]. right. by split.
  - rewrite decide_False.
    + eexists _, _. split; [reflexivity |]. left. lia.
    + intros Heq. rewrite Heq in Hlong. lia.
Qed.

(** On a non-empty target the structural variation has three outcomes: the
    last table entry is drawn and [re] raises; a rule matches and the result
    is longer than the target; or no rule matches and the result is what
    character substitution makes of the target, of the same length.  It never
    returns a shorter string. *)
Theorem structural_variation_never_shortens (target : str) (similarity : Q)
    (g : rng) :
  target ≠ [] →
  structural_variation_decoy target similarity g = Raise re_error
  ∨ ∃ r g', structural_variation_decoy target similarity g = Ok (r, g')
      ∧ (length target < length r
         ∨ (length r = length target
            ∧ character_substitution_decoy target similarity (tail g)
              = Ok (r, g'))).
Proof.
  intros Hne.
  destruct (structural_variation_outcomes target similarity g Hne)
    as [[_ Hraise] | [_ Hok]]; [by left | by right].
Qed.

(** For a non-empty target [generate_decoy] either returns a string at least
    as long as the target, so never the empty string, or fails with the
    error of [re]; it fails only at a complexity above 3, and only when the
    last entry of the pattern table is drawn. *)
Theorem generate_decoy_outcomes (target : str) (complexity : Z) (g : rng) :
  target ≠ [] →
  (∃ r g', generate_decoy target complexity g = Ok (r, g')
     ∧ length target ≤ length r ∧ r ≠ [])
  ∨ (generate_decoy target complexity g = Raise re_error
     ∧ (3 < complexity)%Z).
Proof.
  intros Hne.
  assert (∀ r : str, length target ≤ length r → r ≠ []) as Hnonempty.
  { intros [| ? ?] Hle; [| done]. destruct target; [done | cbn in Hle; lia]. }
  assert (∀ sim h,
            ∃ r g', character_substitution_decoy target sim h = Ok (r, g')
              ∧ length target ≤ length r ∧ r ≠ []) as Hcsd.
  { intros sim h.
    destruct (character_substitution_decoy_spec target sim h Hne)
      as (_ & _ & r & g2 & _ & Hrun & _ & _ & _ & Hlen & _).
    exists r, g2. split; [done |]. split; [lia | apply Hnonempty; lia]. }
  assert (∀ sim h,
            (∃ r g', structural_variation_decoy target sim h = Ok (r, g')
               ∧ length target ≤ length r ∧ r ≠ [])
            ∨ structural_variation_decoy target sim h = Raise re_error)
    as Hsvd.
  { intros sim h.
    destruct (structural_variation_outcomes target sim h Hne)
      as [[_ Hraise] | [_ (r & g2 & Hrun & Hlen)]]; [by right | left].
    exists r, g2. split; [done |].
    split; [| apply Hnonempty]; destruct Hlen as [? | [? _]]; lia. }
  unfold generate_decoy. rewrite decide_False by done.
  destruct (Z.leb_spec complexity 3); [left; apply Hcsd |].
  destruct (Z.leb_spec complexity 7).
  - unfold bind. destruct (random_below_half g) as (x & -> & _).
    destruct (Qltb x (1 # 2)); [left; apply Hcsd |].
    destruct (Hsvd (1 - inject_Z complexity / 20)%Q (tail g)) as [Hok | Hraise];
      [by left | by right].
  - destruct (Hsvd (1 - inject_Z complexity / 20)%Q g) as [Hok | Hraise];
      [by left | by right].
Qed.

End GeneratorMore.

(** ** The similarity ratio *)

Section SequenceMatcherFacts.
Variables a b : str.

(** A match lies inside the two windows it was searched in. *)
Abbreviation within alo ahi blo bhi t :=
  (alo ≤ t.1.1 ∧ t.1.1 + t.2 ≤ ahi ∧ blo ≤ t.1.2 ∧ t.1.2 + t.2 ≤ bhi)
  (only parsing).

Lemma scan_row_within (ai : char) (alo ahi blo bhi i m : nat) (bs : str) :
  ∀ (prevs : list nat) (j : nat) (best : nat * nat * nat),
  alo ≤ i < ahi → m = i - alo →
  (∀ t p, prevs !! t = Some p → p ≤ m ∧ p ≤ j + t - blo) →
  within alo ahi blo bhi best →
  (∀ t k, (scan_row b ai blo bhi i j bs prevs best).1 !! t = Some k →
     k ≤ S m ∧ k ≤ j + t + 1 - blo)
  ∧ within alo ahi blo bhi (scan_row b ai blo bhi i j bs prevs best).2.
Proof.
  induction bs as [| bj bs IH]; intros prevs j best Hi Hm Hprevs Hbest.
  - cbn. split; [by intros t k ? | done].
  - destruct prevs as [| prev prevs]; [cbn; split; [by intros t k ? | done] |].
    cbn [scan_row].
    set (k := if _ && _ && _ && _ then S prev else 0).
    set (best' := if best.2 <? k then _ else best).
    destruct (Hprevs 0 prev eq_refl) as [Hp1 Hp2].
    assert (k ≤ S m ∧ k ≤ j + 1 - blo ∧ (0 < k → j < bhi)) as (Hk1 & Hk2 & Hk3).
    { subst k. destruct (Nat.leb_spec blo j), (Nat.ltb_spec j bhi);
        cbn [andb]; try (repeat split; lia).
      destruct (_ && _); repeat split; lia. }
    assert (within alo ahi blo bhi best') as Hbest'.
    { subst best'. destruct (Nat.ltb_spec best.2 k); [| done].
      cbn [fst snd]. lia. }
    destruct (IH prevs (S j) best' Hi Hm) as [Hrow Hres]; [| done |].
    { intros t p Ht. destruct (Hprevs (S t) p Ht). lia. }
    destruct (scan_row b ai blo bhi i (S j) bs prevs best') as [row best''].
    cbn [fst snd] in *. split; [| done].
    intros [| t] k'; cbn [lookup list_lookup].
    + intros [= <-]. lia.
    + intros Ht. destruct (Hrow t k' Ht). lia.
Qed.

Lemma scan_rows_within (alo ahi blo bhi : nat) (elts : str) :
  ∀ (i : nat) (row : list nat) (best : nat * nat * nat),
  alo ≤ i → i + length elts ≤ ahi →
  (∀ t k, row !! t = Some k → k ≤ i - alo ∧ k ≤ t + 1 - blo) →
  within alo ahi blo bhi best →
  within alo ahi blo bhi (scan_rows b blo bhi i elts row best).
Proof.
  induction elts as [| ai elts IH]; intros i row best Hi Hlen Hrow Hbest;
    [done |].
  cbn [scan_rows]. cbn [length] in Hlen.
  destruct (scan_row_within ai alo ahi blo bhi i (i - alo) b (0 :: row) 0 best)
    as [Hrow' Hbest']; [lia | done | | done |].
  { intros [| t] p; cbn [lookup list_lookup].
    - intros [= <-]. lia.
    - intros Ht. destruct (Hrow t p Ht). lia. }
  destruct (scan_row b ai blo bhi i 0 b (0 :: row) best) as [row' best'].
  cbn [fst snd] in *. apply IH; [lia | lia | | done].
  intros t k Ht. destruct (Hrow' t k Ht). lia.
Qed.

Lemma extend_left_within (alo ahi blo bhi fuel : nat) :
  ∀ best : nat * nat * nat,
  within alo ahi blo bhi best →
  within alo ahi blo bhi (extend_left a b fuel alo blo best).
Proof.
  induction fuel as [| fuel IH]; intros [[besti bestj] bestsize] Hbest; [done |].
  cbn [extend_left]. cbn [fst snd] in Hbest.
  destruct (Nat.ltb_spec alo besti), (Nat.ltb_spec blo bestj); cbn [andb];
    try done.
  destruct (bool_decide _); [| done]. apply IH. cbn [fst snd]. lia.
Qed.

Lemma extend_right_within (alo ahi blo bhi fuel : nat) :
  ∀ best : nat * nat * nat,
  within alo ahi blo bhi best →
  within alo ahi blo bhi (extend_right a b fuel ahi bhi best).
Proof.
  induction fuel as [| fuel IH]; intros [[besti bestj] bestsize] Hbest; [done |].
  cbn [extend_right]. cbn [fst snd] in Hbest.
  destruct (Nat.ltb_spec (besti + bestsize) ahi),
    (Nat.ltb_spec (bestj + bestsize) bhi); cbn [andb]; try done.
  destruct (bool_decide _); [| done]. apply IH. cbn [fst snd]. lia.
Qed.

Lemma find_longest_match_within (alo ahi blo bhi : nat) :
  alo ≤ ahi → blo ≤ bhi →
  within alo ahi blo bhi (find_longest_match a b alo ahi blo bhi).
Proof.
  intros Ha Hb. unfold find_longest_match.
  apply extend_right_within, extend_left_within, scan_rows_within.
  - done.
  - rewrite length_take. lia.
  - intros t k [-> _]%lookup_replicate. lia.
  - cbn [fst snd]. lia.
Qed.

Abbreviation sizes blocks := (sum_list (map snd blocks)) (only parsing).
Abbreviation width_a queue :=
  (sum_list (map (λ q : nat * nat * nat * nat, q.1.1.2 - q.1.1.1) queue))
  (only parsing).
Abbreviation width_b queue :=
  (sum_list (map (λ q : nat * nat * nat * nat, q.2 - q.1.2) queue))
  (only parsing).

Lemma matching_blocks_loop_bound (fuel : nat) :
  ∀ (queue : list (nat * nat * nat * nat)) (blocks : list (nat * nat * nat)),
  Forall (λ q, q.1.1.1 ≤ q.1.1.2 ∧ q.1.2 ≤ q.2) queue →
  sizes (matching_blocks_loop a b fuel queue blocks)
  ≤ sizes blocks + width_a queue
  ∧ sizes (matching_blocks_loop a b fuel queue blocks)
    ≤ sizes blocks + width_b queue.
Proof.
  induction fuel as [| fuel IH]; intros queue blocks Hq; [cbn; lia |].
  destruct queue as [| [[[alo ahi] blo] bhi] queue]; [cbn; lia |].
  apply Forall_cons in Hq as [[Ha Hb] Hq]. cbn [fst snd] in Ha, Hb.
  cbn [matching_blocks_loop].
  pose proof (find_longest_match_within alo ahi blo bhi Ha Hb) as Hin.
  destruct (find_longest_match a b alo ahi blo bhi) as [[i j] k].
  cbn [fst snd] in Hin. cbn [map sum_list_with fst snd id].
  destruct (Nat.eqb_spec k 0) as [-> | Hk].
  { destruct (IH queue blocks Hq). lia. }
  set (q1 := if (alo <? i) && (blo <? j) then _ else queue).
  assert (Forall (λ q, q.1.1.1 ≤ q.1.1.2 ∧ q.1.2 ≤ q.2) q1
          ∧ width_a q1 ≤ width_a queue + (i - alo)
          ∧ width_b q1 ≤ width_b queue + (j - blo)) as (Hq1 & Ha1 & Hb1).
  { subst q1. destruct ((alo <? i) && (blo <? j));
      cbn [map sum_list_with fst snd id]; (split; [| lia]); [| done].
    apply Forall_cons. cbn [fst snd]. split; [lia | done]. }
  clearbody q1.
  set (q2 := if (i + k <? ahi) && (j + k <? bhi) then _ else q1).
  assert (Forall (λ q, q.1.1.1 ≤ q.1.1.2 ∧ q.1.2 ≤ q.2) q2
          ∧ width_a q2 ≤ width_a q1 + (ahi - (i + k))
          ∧ width_b q2 ≤ width_b q1 + (bhi - (j + k))) as (Hq2 & Ha2 & Hb2).
  { subst q2. destruct ((i + k <? ahi) && (j + k <? bhi));
      cbn [map sum_list_with fst snd id]; (split; [| lia]); [| done].
    apply Forall_cons. cbn [fst snd]. split; [lia | done]. }
  clearbody q2.
  destruct (IH q2 (blocks ++ [(i, j, k)]) Hq2) as [Hsa Hsb].
  rewrite map_app, sum_list_with_app in Hsa, Hsb. cbn [map sum_list_with snd id] in Hsa, Hsb.
  lia.
Qed.

Lemma matching_blocks_min :
  sizes (matching_blocks a b) ≤ length a `min` length b.
Proof.
  unfold matching_blocks.
  destruct (matching_blocks_loop_bound (2 * length a + 1)
              [(0, length a, 0, length b)] []) as [Ha Hb].
  { apply Forall_cons. cbn [fst snd]. split; [lia | done]. }
  cbn [map sum_list_with fst snd id] in Ha, Hb. lia.
Qed.

Lemma ratio_bounds : (0 <= ratio a b)%Q ∧ (ratio a b <= 1)%Q.
Proof.
  unfold ratio. pose proof matching_blocks_min as Hm.
  destruct (Nat.eqb_spec (length a + length b) 0) as [_ | Hne]; [split; lra |].
  set (m := sizes (matching_blocks a b)) in *.
  assert (0 < Z.of_nat (length a + length b))%Z as Hl by lia.
  assert (2 * Z.of_nat m ≤ Z.of_nat (length a + length b))%Z as Hm' by lia.
  destruct (Z.of_nat (length a + length b)) as [| l | l]; try lia.
  unfold Qdiv, Qinv, Qmult, Qle, inject_Z. cbn [Qnum Qden].
  rewrite !Z.mul_1_r, !Pos.mul_1_l. lia.
Qed.

End SequenceMatcherFacts.

(** ** The range of the scores *)

Lemma round_half_even_cases (x : Q) :
  (round_half_even x = Qfloor x
   ∧ (x - inject_Z (Qfloor x) <= 1 # 2)%Q
   ∧ ((x - inject_Z (Qfloor x) == 1 # 2)%Q → Z.even (Qfloor x) = true))
  ∨ (round_half_even x = (Qfloor x + 1)%Z
     ∧ (1 # 2 <= x - inject_Z (Qfloor x))%Q
     ∧ ((x - inject_Z (Qfloor x) == 1 # 2)%Q → Z.even (Qfloor x) = false)).
Proof.
  unfold round_half_even.
  destruct (Qcompare_spec (x - inject_Z (Qfloor x)) (1 # 2)) as [Heq | Hlt | Hgt].
  - destruct (Z.even (Qfloor x)); [left | right];
      (split; [done |]); (split; [lra | done]).
  - left. split; [done |]. split; [lra |]. intros Heq. lra.
  - right. split; [done |]. split; [lra |]. intros Heq. lra.
Qed.

Lemma round_half_even_mono (x y : Q) :
  (x <= y)%Q → (round_half_even x ≤ round_half_even y)%Z.
Proof.
  intros Hxy. pose proof (Qfloor_resp_le x y Hxy) as Hf.
  pose proof (Qfloor_le x) as Hx1. pose proof (Qfloor_le y) as Hy1.
  destruct (round_half_even_cases x) as [(-> & Hx & Hxe) | (-> & Hx & Hxe)],
    (round_half_even_cases y) as [(-> & Hy & Hye) | (-> & Hy & Hye)]; try lia.
  destruct (Z.eq_dec (Qfloor x) (Qfloor y)) as [Heq | Hne]; [| lia].
  rewrite <- Heq in Hy, Hye.
  assert (x - inject_Z (Qfloor x) == 1 # 2)%Q as H1 by lra.
  assert (y - inject_Z (Qfloor x) == 1 # 2)%Q as H2 by lra.
  specialize (Hxe H1). specialize (Hye H2). congruence.
Qed.

Lemma py_round2_mono (x y : Q) : (x <= y)%Q → (py_round2 x <= py_round2 y)%Q.
Proof.
  intros Hxy. unfold py_round2.
  assert (round_half_even (x * 100) ≤ round_half_even (y * 100))%Z as Hr
    by (apply round_half_even_mono; lra).
  unfold Qle. cbn [Qnum Qden]. lia.
Qed.

Lemma py_round2_unit (x : Q) :
  (0 <= x)%Q → (x <= 1)%Q → (0 <= py_round2 x)%Q ∧ (py_round2 x <= 1)%Q.
Proof.
  intros H0 H1.
  pose proof (py_round2_mono 0 x H0) as Hlo.
  pose proof (py_round2_mono x 1 H1) as Hhi.
  change (py_round2 0) with (0 # 100)%Q in Hlo.
  change (py_round2 1) with (100 # 100)%Q in Hhi.
  split; [lra | lra].
Qed.



Lemma evaluate_decoy_unit (st : globals) (decoy target : str) :
  calibrated st →
  (0 <= evaluate_decoy st decoy target)%Q
  ∧ (evaluate_decoy st decoy target <= 1)%Q
  ∧ (calculate_similarity decoy target * (1 # 2)
     <= evaluate_decoy st decoy target)%Q
  ∧ (evaluate_decoy st decoy target
     <= calculate_similarity decoy target * (1 # 2) + (1 # 2))%Q.
Proof.
  intros Hcal. unfold evaluate_decoy, calculate_similarity.
  destruct (ratio_bounds decoy target) as [Hs0 Hs1].
  set (s := ratio decoy target) in *. clearbody s.
  assert (0 <= match model st, vectorizer st with
               | Some m, Some v => predicted_real m v decoy
               | _, _ => 1 # 2
               end
          ∧ match model st, vectorizer st with
            | Some m, Some v => predicted_real m v decoy
            | _, _ => 1 # 2
            end <= 1)%Q as [Hp0 Hp1].
  { destruct (model st) as [m |] eqn:Hm; [| split; lra].
    destruct (vectorizer st) as [v |]; [| split; lra].
    unfold predicted_real, predict_proba, transform. cbn [map].
    exact (Hcal m _ Hm). }
  repeat split; lra.
Qed.

(** [calculate_similarity] returns a ratio between 0 and 1, whatever the two
    strings are: the matching blocks of [SequenceMatcher] never overlap, so
    they cover at most as many characters as either string has. *)
Theorem calculate_similarity_bounds (decoy target : str) :
  (0 <= calculate_similarity decoy target)%Q
  ∧ (calculate_similarity decoy target <= 1)%Q
  ∧ sum_list (map snd (matching_blocks decoy target))
    ≤ length decoy `min` length target.
Proof.
  destruct (ratio_bounds decoy target) as [H0 H1].
  split; [done |]. split; [done |].
  apply matching_blocks_min.
Qed.

(** The effectiveness score lies between 0 and 1 as soon as the classifier
    reports a probability between 0 and 1 (and always when no model is
    loaded), and it is the similarity within one half. *)
Theorem evaluate_decoy_bounds (st : globals) (decoy target : str) :
  calibrated st →
  (0 <= evaluate_decoy st decoy target)%Q
  ∧ (evaluate_decoy st decoy target <= 1)%Q
  ∧ (calculate_similarity decoy target * (1 # 2)
     <= evaluate_decoy st decoy target)%Q
  ∧ (evaluate_decoy st decoy target
     <= calculate_similarity decoy target * (1 # 2) + (1 # 2))%Q.
Proof. exact (evaluate_decoy_unit st decoy target). Qed.

Lemma Qsum_map_mean_unit {A} (f : A → Q) (l : list A) :
  l ≠ [] → Forall (λ r, (0 <= f r)%Q ∧ (f r <= 1)%Q) l →
  (0 <= py_round2 (Qsum (map f l) / inject_Z (Z.of_nat (length l))))%Q
  ∧ (py_round2 (Qsum (map f l) / inject_Z (Z.of_nat (length l))) <= 1)%Q.
Proof.
  intros Hne Hall.
  destruct (Qmean_bounds 0 1 (map f l)) as [H0 H1].
  { by destruct l. }
  { by apply Forall_fmap. }
  rewrite length_map in H0, H1. by apply py_round2_unit.
Qed.


(** Every figure a successful [POST /evaluate] reports lies between 0 and 1
    when the classifier reports probabilities between 0 and 1: the rounded
    effectiveness, similarity and probability of each evaluation and the two
    averages. *)
Theorem evaluate_reports_within_unit (st : globals)
    (data : option evaluate_request) (payload : evaluate_payload) :
  calibrated st →
  evaluate_decoys_endpoint st data = Resp200 payload →
  Forall (λ r, ((0 <= ev_effectiveness r)%Q ∧ (ev_effectiveness r <= 1)%Q)
               ∧ ((0 <= ev_similarity r)%Q ∧ (ev_similarity r <= 1)%Q)
               ∧ ∀ p, ev_real_probability r = Some p →
                      (0 <= p)%Q ∧ (p <= 1)%Q)
    (ep_evaluations payload)
  ∧ ((0 <= em_avg_effectiveness (ep_metrics payload))%Q
     ∧ (em_avg_effectiveness (ep_metrics payload) <= 1)%Q)
  ∧ ((0 <= em_avg_similarity (ep_metrics payload))%Q
     ∧ (em_avg_similarity (ep_metrics payload) <= 1)%Q).
Proof.
  intros Hcal. unfold evaluate_decoys_endpoint.
  destruct data as [data |]; [| discriminate].
  destruct (bool_decide _); [discriminate |].
  destruct (e_target data) as [[| x target] |]; try discriminate.
  destruct (default [] (e_decoys data)) as [| d decoys] eqn:Hdecoys;
    [discriminate |].
  destruct (list_sort_reverse_spec ev_effectiveness
              (map (evaluate_one st (x :: target)) (d :: decoys)))
    as (Hperm & _).
  set (results := list_sort _ _ _) in *.
  intros [= <-]. cbn [ep_evaluations ep_metrics em_avg_effectiveness
                      em_avg_similarity].
  assert (Forall (λ r, ((0 <= ev_effectiveness r)%Q ∧ (ev_effectiveness r <= 1)%Q)
               ∧ ((0 <= ev_similarity r)%Q ∧ (ev_similarity r <= 1)%Q)
               ∧ ∀ p, ev_real_probability r = Some p →
                      (0 <= p)%Q ∧ (p <= 1)%Q) results) as Hall.
  { rewrite Hperm. apply Forall_fmap, Forall_true. intros decoy.
    unfold evaluate_one, compose.
    cbn [ev_effectiveness ev_similarity ev_real_probability].
    destruct (evaluate_decoy_unit st decoy (x :: target) Hcal)
      as (He0 & He1 & _).
    destruct (ratio_bounds decoy (x :: target)) as [Hs0 Hs1].
    split; [by apply py_round2_unit |].
    split; [by apply py_round2_unit |].
    intros p. destruct (model st) as [m |] eqn:Hm; [| discriminate].
    destruct (vectorizer st) as [v |]; [| discriminate].
    intros [= <-]. unfold predicted_real, predict_proba, transform. cbn [map].
    destruct (Hcal m (features v decoy) Hm). by apply py_round2_unit. }
  assert (results ≠ []) as Hne.
  { intros Hnil. rewrite Hnil in Hperm. by apply Permutation_nil_l in Hperm. }
  split; [done |]. split.
  - apply Qsum_map_mean_unit; [done |].
    eapply Forall_impl; [exact Hall |]. by intros r (? & _).
  - apply Qsum_map_mean_unit; [done |].
    eapply Forall_impl; [exact Hall |]. by intros r (_ & ? & _).
Qed.

(** ** The similarity of equal strings and of strings with nothing in common *)

Section EqualStrings.
Variable s : str.

Abbreviation row_bound i j row :=
  (∀ t k, row !! t = Some k →
     k ≤ kept_run s i ∧ k ≤ kept_run s (j + t)
     ∧ ((j + t)%nat = i%nat → k = kept_run s i))
  (only parsing).

(** One row of the scan of [s] against itself: no cell holds a longer run
    than the diagonal cells of its row and of its column, so the best run
    stays on the diagonal. *)
Lemma scan_row_diagonal (i : nat) (ai : char) (bs : str) :
  s !! i = Some ai →
  ∀ (prevs : list nat) (j : nat) (best : nat * nat * nat),
  bs = drop j s →
  length prevs = S (length bs) →
  row_bound i j prevs →
  best.1.1 = best.1.2 →
  (∀ t, t < i → kept_run s (S t) ≤ best.2) →
  (i < j → kept_run s (S i) ≤ best.2) →
  length (scan_row s ai 0 (length s) i j bs prevs best).1 = length bs
  ∧ row_bound (S i) (S j) (scan_row s ai 0 (length s) i j bs prevs best).1
  ∧ (scan_row s ai 0 (length s) i j bs prevs best).2.1.1
    = (scan_row s ai 0 (length s) i j bs prevs best).2.1.2
  ∧ (∀ t, t < i →
       kept_run s (S t) ≤ (scan_row s ai 0 (length s) i j bs prevs best).2.2)
  ∧ (i < j + length bs →
       kept_run s (S i) ≤ (scan_row s ai 0 (length s) i j bs prevs best).2.2).
Proof.
  intros Hai.
  induction bs as [| bj bs IH];
    intros prevs j best Hbs Hlen Hprevs Hdiag Hbefore Hhere.
  - cbn. repeat split; try done. intros Hi. apply Hhere. cbn in Hi. lia.
  - destruct prevs as [| prev prevs]; [done |].
    assert (s !! j = Some bj) as Hj.
    { pose proof (lookup_drop s j 0) as Hl. rewrite <- Hbs, Nat.add_0_r in Hl.
      by rewrite <- Hl. }
    assert (bs = drop (S j) s) as Hbs'.
    { rewrite (drop_S s bj j Hj) in Hbs. by injection Hbs. }
    pose proof (lookup_lt_Some _ _ _ Hj) as Hjlt.
    cbn [scan_row].
    set (k := if _ && _ && _ && _ then S prev else 0).
    set (best' := if best.2 <? k then _ else best).
    destruct (Hprevs 0 prev eq_refl) as (Hp1 & Hp2 & Hp3).
    rewrite Nat.add_0_r in Hp2, Hp3.
    assert (k ≤ kept_run s (S i) ∧ k ≤ kept_run s (S j)
            ∧ (j = i → k = kept_run s (S i))) as (Hk1 & Hk2 & Hk3).
    { subst k. cbn [kept_run]. rewrite Hai, Hj.
      replace (j <? length s) with true by (symmetry; by apply Nat.ltb_lt).
      cbn [Nat.leb andb].
      destruct (Z.eqb_spec bj ai) as [-> | Hne]; cbn [andb].
      - destruct (popular s ai); cbn [negb]; repeat split; try lia;
          intros Hji; specialize (Hp3 Hji); lia.
      - repeat split; try lia; intros ->; congruence. }
    assert (best'.1.1 = best'.1.2 ∧ best.2 ≤ best'.2 ∧ k ≤ best'.2)
      as (Hdiag' & Hmono & Hkb).
    { subst best'. destruct (Nat.ltb_spec best.2 k) as [Hlt | Hge];
        cbn [fst snd]; [| repeat split; (done || lia)].
      repeat split; try lia.
      destruct (Nat.lt_trichotomy i j) as [Hij | [-> | Hij]]; [| done |].
      + specialize (Hhere Hij). lia.
      + specialize (Hbefore j Hij). lia. }
    destruct (IH prevs (S j) best') as (Hl & Hr & Hd & Hb & Hh);
      [done | cbn in Hlen; lia | | done | | |].
    { intros t p Ht. destruct (Hprevs (S t) p Ht) as (? & ? & ?).
      replace (S j + t) with (j + S t) by lia. done. }
    { intros t Ht. specialize (Hbefore t Ht). lia. }
    { intros Hi. destruct (decide (i = j)) as [-> | Hne].
      - rewrite <- (Hk3 eq_refl). done.
      - assert (i < j) as Hij by lia. specialize (Hhere Hij). lia. }
    destruct (scan_row s ai 0 (length s) i (S j) bs prevs best')
      as [row best''].
    cbn [fst snd length] in *.
    split; [by rewrite Hl |]. split; [| split; [done | split; [done |]]].
    + intros [| t] k'; cbn [lookup list_lookup].
      * intros [= <-]. rewrite Nat.add_0_r.
        split; [done | split; [done |]]. intros [= ->]. by apply Hk3.
      * intros Ht. destruct (Hr t k' Ht) as (? & ? & ?).
        replace (S j + S t) with (S (S j + t)) by lia.
        split; [done | split; [done |]]. intros Heq. apply H1. lia.
    + intros Hi. apply Hh. lia.
Qed.

Lemma scan_rows_diagonal (elts : str) :
  ∀ (i : nat) (row : list nat) (best : nat * nat * nat),
  elts = drop i s →
  length row = length s →
  row_bound i 1 row →
  best.1.1 = best.1.2 →
  (∀ t, t < i → kept_run s (S t) ≤ best.2) →
  (scan_rows s 0 (length s) i elts row best).1.1
  = (scan_rows s 0 (length s) i elts row best).1.2.
Proof.
  induction elts as [| ai elts IH]; intros i row best Helts Hlen Hrow Hdiag
    Hbefore; [done |].
  assert (s !! i = Some ai) as Hai.
  { pose proof (lookup_drop s i 0) as Hl. rewrite <- Helts, Nat.add_0_r in Hl.
    by rewrite <- Hl. }
  assert (elts = drop (S i) s) as Helts'.
  { rewrite (drop_S s ai i Hai) in Helts. by injection Helts. }
  pose proof (lookup_lt_Some _ _ _ Hai) as Hilt.
  cbn [scan_rows].
  destruct (scan_row_diagonal i ai s Hai (0 :: row) 0 best)
    as (Hl & Hr & Hd & Hb & Hh); [done | cbn; lia | | done | done | lia |].
  { intros [| t] p; cbn [lookup list_lookup].
    - intros [= <-]. split; [lia | split; [lia |]]. by intros <-.
    - intros Ht. destruct (Hrow t p Ht) as (? & ? & ?). done. }
  destruct (scan_row s ai 0 (length s) i 0 s (0 :: row) best) as [row' best'].
  cbn [fst snd] in *.
  apply IH; [done | done | done | done |].
  intros t Ht. destruct (decide (t = i)) as [-> | Hne].
  - apply Hh. lia.
  - apply Hb. lia.
Qed.

Lemma extend_left_same (fuel : nat) : ∀ i k : nat,
  i ≤ fuel → extend_left s s fuel 0 0 (i, i, k) = (0, 0, i + k).
Proof.
  induction fuel as [| fuel IH]; intros i k Hi.
  - by replace i with 0 by lia.
  - destruct i as [| i]; [done |]. cbn [extend_left].
    replace (S i - 1) with i by lia.
    rewrite bool_decide_eq_true_2 by done. cbn [Nat.ltb Nat.leb andb].
    rewrite IH by lia. f_equal. lia.
Qed.

Lemma extend_right_same (fuel : nat) : ∀ k : nat,
  k ≤ length s → length s - k ≤ fuel →
  extend_right s s fuel (length s) (length s) (0, 0, k) = (0, 0, length s).
Proof.
  induction fuel as [| fuel IH]; intros k Hk Hfuel.
  - cbn. do 2 f_equal. lia.
  - cbn [extend_right]. rewrite Nat.add_0_l.
    destruct (Nat.ltb_spec k (length s)) as [Hlt | Hge]; cbn [andb].
    + rewrite bool_decide_eq_true_2 by done. apply IH; lia.
    + do 2 f_equal. lia.
Qed.

Lemma find_longest_match_same :
  find_longest_match s s 0 (length s) 0 (length s) = (0, 0, length s).
Proof.
  unfold find_longest_match. rewrite Nat.sub_0_r, drop_0, take_ge by done.
  pose proof (scan_rows_diagonal s 0 (replicate (length s) 0) (0, 0, 0))
    as Hdiag.
  pose proof (scan_rows_within s 0 (length s) 0 (length s) s 0
                (replicate (length s) 0) (0, 0, 0)) as Hin.
  destruct (scan_rows s 0 (length s) 0 s (replicate (length s) 0) (0, 0, 0))
    as [[i j] k].
  cbn [fst snd] in Hdiag, Hin.
  rewrite <- Hdiag.
  - destruct Hin as (_ & Hik & _); [lia | lia | | lia |].
    { intros t p Ht. apply lookup_replicate in Ht as [-> _]. lia. }
    rewrite extend_left_same by lia. apply extend_right_same; lia.
  - done.
  - by rewrite length_replicate.
  - intros t p Ht. apply lookup_replicate in Ht as [-> _].
    split; [lia | split; [lia | done]].
  - done.
  - intros t Ht. lia.
Qed.

Lemma matching_blocks_same : s ≠ [] → matching_blocks s s = [(0, 0, length s)].
Proof.
  intros Hne. unfold matching_blocks.
  replace (2 * length s + 1) with (S (2 * length s)) by lia.
  cbn [matching_blocks_loop]. rewrite find_longest_match_same.
  destruct (Nat.eqb_spec (length s) 0) as [Hz | _].
  { by destruct s. }
  rewrite Nat.add_0_l, Nat.ltb_irrefl. cbn [Nat.ltb Nat.leb andb app].
  by destruct (2 * length s).
Qed.

Lemma ratio_same : (ratio s s == 1)%Q.
Proof.
  unfold ratio. destruct (decide (s = [])) as [-> | Hne]; [done |].
  rewrite matching_blocks_same by done.
  cbn [map sum_list_with snd id]. rewrite Nat.add_0_r.
  destruct (Nat.eqb_spec (length s + length s) 0) as [Hz | _].
  { by destruct s. }
  rewrite Nat2Z.inj_add, inject_Z_plus.
  assert (0 < inject_Z (Z.of_nat (length s)))%Q as Hpos.
  { destruct s; [done |]. unfold Qlt, inject_Z. cbn. lia. }
  field. lra.
Qed.

End EqualStrings.

Section DisjointStrings.
Variables a b : str.
Hypothesis disjoint : ∀ c : char, c ∈ a → c ∉ b.

Lemma scan_row_disjoint (ai : char) (blo bhi i : nat) (bs : str) :
  Forall (λ bj, bj ≠ ai) bs →
  ∀ (prevs : list nat) (j : nat) (best : nat * nat * nat),
  (scan_row b ai blo bhi i j bs prevs best).2 = best.
Proof.
  induction 1 as [| bj bs Hne Hbs IH]; intros prevs j best; [done |].
  destruct prevs as [| prev prevs]; [done |]. cbn [scan_row].
  replace (bj =? ai)%Z with false by (symmetry; by apply Z.eqb_neq).
  rewrite !andb_false_r. cbn [andb]. change (best.2 <? 0) with false. cbv iota.
  specialize (IH prevs (S j) best).
  by destruct (scan_row b ai blo bhi i (S j) bs prevs best).
Qed.

Lemma scan_rows_disjoint (blo bhi : nat) (elts : str) :
  Forall (λ ai, ai ∈ a) elts →
  ∀ (i : nat) (row : list nat) (best : nat * nat * nat),
  scan_rows b blo bhi i elts row best = best.
Proof using disjoint.
  induction 1 as [| ai elts Hai Helts IH]; intros i row best; [done |].
  cbn [scan_rows].
  pose proof (scan_row_disjoint ai blo bhi i b) as Hrow.
  specialize (Hrow ltac:(apply Forall_forall; intros bj Hbj ->;
                         by apply (disjoint ai)) (0 :: row) 0 best).
  destruct (scan_row b ai blo bhi i 0 b (0 :: row) best) as [row' best'].
  cbn [snd] in Hrow. subst best'. apply IH.
Qed.

Lemma matching_blocks_disjoint : matching_blocks a b = [].
Proof using disjoint.
  unfold matching_blocks.
  replace (2 * length a + 1) with (S (2 * length a)) by lia.
  cbn [matching_blocks_loop]. unfold find_longest_match.
  rewrite scan_rows_disjoint.
  2:{ apply Forall_forall. intros c Hc.
      by apply subseteq_take, subseteq_drop in Hc. }
  assert (extend_left a b (length a) 0 0 (0, 0, 0) = (0, 0, 0)) as ->
    by (by destruct (length a)).
  assert (extend_right a b (length a) (length a) (length b) (0, 0, 0)
          = (0, 0, 0)) as ->.
  { destruct (length a) as [| n] eqn:Hn; [done |]. cbn [extend_right].
    rewrite !Nat.add_0_l.
    destruct a as [| x a']; [done |]. destruct b as [| y b']; [done |].
    rewrite bool_decide_eq_false_2, andb_false_r; [done |].
    cbn. intros [= ->]. apply (disjoint y); apply list_elem_of_here. }
  change (matching_blocks_loop a b (2 * length a) [] [] = []).
  by destruct (2 * length a)%nat.
Qed.

Lemma ratio_disjoint : a ++ b ≠ [] → (ratio a b == 0)%Q.
Proof using disjoint.
  intros Hne. unfold ratio. rewrite matching_blocks_disjoint.
  destruct (Nat.eqb_spec (length a + length b) 0) as [Hz | _].
  { destruct a, b; done. }
  cbn [map sum_list_with]. unfold Qdiv. change (inject_Z (Z.of_nat 0)) with 0%Q.
  ring.
Qed.

End DisjointStrings.

(** A decoy equal to the target has similarity 1, whatever the string and
    with the automatic junk heuristic of long strings included; with no model
    loaded its effectiveness is 0.75. *)
Theorem calculate_similarity_identical (target : str) :
  (calculate_similarity target target == 1)%Q
  ∧ (evaluate_decoy no_model target target == 3 # 4)%Q.
Proof.
  pose proof (ratio_same target) as Hr.
  split; [done |].
  unfold evaluate_decoy, calculate_similarity. cbn [model no_model].
  rewrite Hr. reflexivity.
Qed.

(** A decoy that shares no character with the target has similarity 0, and
    with no model loaded effectiveness 0.25. *)
Theorem calculate_similarity_disjoint (decoy target : str) :
  (∀ c : char, c ∈ decoy → c ∉ target) →
  decoy ++ target ≠ [] →
  (calculate_similarity decoy target == 0)%Q
  ∧ (evaluate_decoy no_model decoy target == 1 # 4)%Q.
Proof.
  intros Hdis Hne. pose proof (ratio_disjoint decoy target Hdis Hne) as Hr.
  split; [done |].
  unfold evaluate_decoy, calculate_similarity. cbn [model no_model].
  rewrite Hr. reflexivity.
Qed.

(** ** Instances of the conditional statements above *)


Lemma second_generate_decoys_empty_target_witness :
  (1 ≤ 3)%Z ∧ Second.generate_decoys [] 5 3 [] = Raise ValueError.
Proof.
  split; [lia |].
  exact (proj1 (second_generate_decoys_empty_target 5 3 "now" [] ltac:(lia))).
Defined.

(** A vectorizer without features and a forest that answers one half for
    every row, to instantiate the statements on the model lifecycle. *)
Lemma load_or_create_model_lifecycle_witness :
  (∀ (X : list (list Z)) (y : list Z) (h : rng), ∃ m h',
     ret {| class_proba := λ _, (1 # 2, 1 # 2)%Q |} h = Ok (m, h'))
  ∧ ∃ st fs' g',
      load_or_create_model (λ _, {| features := λ _, [] |})
        (λ _ _, ret {| class_proba := λ _, (1 # 2, 1 # 2)%Q |})
        {| model_file := None; vectorizer_file := None |} [] = Ok ((st, fs'), g')
      ∧ is_Some (model st) ∧ is_Some (vectorizer st).
Proof.
  assert (∀ (X : list (list Z)) (y : list Z) (h : rng), ∃ m h',
            ret {| class_proba := λ _, (1 # 2, 1 # 2)%Q |} h = Ok (m, h'))
    as Hfit by (intros X y h; by eexists _, _).
  split; [exact Hfit |].
  destruct (load_or_create_model_lifecycle (λ _, {| features := λ _, [] |})
              (λ _ _, ret {| class_proba := λ _, (1 # 2, 1 # 2)%Q |})
              {| model_file := None; vectorizer_file := None |} [] Hfit)
    as (st & fs' & g' & Hrun & Hm & Hv & _).
  exists st, fs', g'. exact (conj Hrun (conj Hm Hv)).
Defined.

Lemma training_set_shape_witness :
  (model_file {| model_file := None; vectorizer_file := None |} = None
   ∨ vectorizer_file {| model_file := None; vectorizer_file := None |} = None)
  ∧ ∃ fakes g1,
      make_sample_fake sample_real [] = Ok (fakes, g1) ∧ length fakes = 54.
Proof.
  split; [by left |].
  destruct (training_set_shape (λ _, {| features := λ _, [] |})
              (λ _ _, ret {| class_proba := λ _, (1 # 2, 1 # 2)%Q |})
              {| model_file := None; vectorizer_file := None |} []
              ltac:(by left))
    as (fakes & g1 & Hrun & _ & Hlen & _).
  exists fakes, g1. exact (conj Hrun Hlen).
Defined.

Lemma before_request_ready_witness :
  (∀ (X : list (list Z)) (y : list Z) (h : rng), ∃ m h',
     ret {| class_proba := λ _, (1 # 2, 1 # 2)%Q |} h = Ok (m, h'))
  ∧ ∃ st' fs' g',
      before_request (λ _, {| features := λ _, [] |})
        (λ _ _, ret {| class_proba := λ _, (1 # 2, 1 # 2)%Q |})
        no_model {| model_file := None; vectorizer_file := None |} []
      = Ok ((st', fs'), g')
      ∧ is_Some (model st').
Proof.
  assert (∀ (X : list (list Z)) (y : list Z) (h : rng), ∃ m h',
            ret {| class_proba := λ _, (1 # 2, 1 # 2)%Q |} h = Ok (m, h'))
    as Hfit by (intros X y h; by eexists _, _).
  split; [exact Hfit |].
  destruct (before_request_ready (λ _, {| features := λ _, [] |})
              (λ _ _, ret {| class_proba := λ _, (1 # 2, 1 # 2)%Q |})
              no_model {| model_file := None; vectorizer_file := None |} []
              Hfit)
    as (st' & fs' & g' & Hrun & Hm & _).
  exists st', fs', g'. exact (conj Hrun Hm).
Defined.

Lemma generate_rejects_missing_target_witness :
  invalid_generate_request
    (Some {| g_target := Some []; g_complexity := Some 5%Z;
             g_count := Some 3%Z |})
  ∧ ∃ error, ∀ st env g,
      generate_decoys st env
        (Some {| g_target := Some []; g_complexity := Some 5%Z;
                 g_count := Some 3%Z |}) g
      = (Resp400 error, []).
Proof.
  assert (invalid_generate_request
            (Some {| g_target := Some []; g_complexity := Some 5%Z;
                     g_count := Some 3%Z |})) as Hbad by (by right).
  split; [exact Hbad |].
  exact (generate_rejects_missing_target _ Hbad).
Defined.

Lemma structural_variation_never_shortens_witness :
  pystr "kyber768" ≠ []
  ∧ (structural_variation_decoy (pystr "kyber768") (3 # 5) [0]%Z
     = Raise re_error
     ∨ ∃ r g',
         structural_variation_decoy (pystr "kyber768") (3 # 5) [0]%Z
         = Ok (r, g')
         ∧ (length (pystr "kyber768") < length r
            ∨ (length r = length (pystr "kyber768")
               ∧ character_substitution_decoy (pystr "kyber768") (3 # 5)
                   (tail [0]%Z) = Ok (r, g')))).
Proof.
  split; [done |].
  by apply (structural_variation_never_shortens (pystr "kyber768")).
Defined.

Lemma generate_decoy_outcomes_witness :
  pystr "kyber768" ≠ []
  ∧ ((∃ r g', generate_decoy (pystr "kyber768") 5 [0; 5; 3]%Z = Ok (r, g')
        ∧ length (pystr "kyber768") ≤ length r ∧ r ≠ [])
     ∨ (generate_decoy (pystr "kyber768") 5 [0; 5; 3]%Z = Raise re_error
        ∧ (3 < 5)%Z)).
Proof.
  split; [done |].
  by apply (generate_decoy_outcomes (pystr "kyber768")).
Defined.

Lemma evaluate_decoy_bounds_witness :
  calibrated (constant_model (1 # 3))
  ∧ (0 <= evaluate_decoy (constant_model (1 # 3)) (pystr "kyber")
            (pystr "kyber768"))%Q
  ∧ (evaluate_decoy (constant_model (1 # 3)) (pystr "kyber")
       (pystr "kyber768") <= 1)%Q.
Proof.
  assert (calibrated (constant_model (1 # 3))) as Hcal.
  { intros m x [= <-]. cbn. split; lra. }
  split; [exact Hcal |].
  destruct (evaluate_decoy_bounds (constant_model (1 # 3)) (pystr "kyber")
              (pystr "kyber768") Hcal) as (H0 & H1 & _).
  by split.
Defined.


Lemma evaluate_reports_within_unit_witness :
  calibrated no_model
  ∧ ∃ payload,
      evaluate_decoys_endpoint no_model
        (Some {| e_target := Some (pystr "kyber768");
                 e_decoys := Some [pystr "zzz"; pystr "kyber768"] |})
      = Resp200 payload
      ∧ (0 <= em_avg_similarity (ep_metrics payload))%Q
      ∧ (em_avg_similarity (ep_metrics payload) <= 1)%Q.
Proof.
  assert (calibrated no_model) as Hcal by (intros m x [=]).
  split; [exact Hcal |].
  assert (∃ payload,
            evaluate_decoys_endpoint no_model
              (Some {| e_target := Some (pystr "kyber768");
                       e_decoys := Some [pystr "zzz"; pystr "kyber768"] |})
            = Resp200 payload)
    as (payload & Hrun) by (eexists; vm_compute; reflexivity).
  exists payload. split; [exact Hrun |].
  exact (proj2 (proj2 (evaluate_reports_within_unit _ _ _ Hcal Hrun))).
Defined.

Lemma calculate_similarity_disjoint_witness :
  (∀ c : char, c ∈ pystr "zzz" → c ∉ pystr "kyber768")
  ∧ pystr "zzz" ++ pystr "kyber768" ≠ []
  ∧ (calculate_similarity (pystr "zzz") (pystr "kyber768") == 0)%Q.
Proof.
  assert (∀ c : char, c ∈ pystr "zzz" → c ∉ pystr "kyber768") as Hdis.
  { apply Forall_forall.
    apply (bool_decide_unpack
             (Forall (λ c : Z, c ∉ pystr "kyber768") (pystr "zzz"))).
    vm_compute. exact I. }
  split; [exact Hdis |]. split; [done |].
  exact (proj1 (calculate_similarity_disjoint _ _ Hdis ltac:(done))).
Defined.
